(** * Verification of pkg/decrypt (decypt_windows.go)

    A shallow embedding of the Go package [decrypt]: the thumbprint codec
    [thumbprintStringToHex], the property query [getCertificateThumbprint],
    the envelope decryptor [decryptDataWithCert] and the pipeline
    [DecryptProtectedSettings].

    Go strings are byte sequences: they are modelled as [string] (a list of
    8-bit [ascii]).  Bytes, runes and machine integers are [Z] with their
    wrap-around written out.  The operations of crypt32.dll and of the
    [syscall] package are collaborators of the package, not part of it: they
    are the fields of a record [Native], and every native call leaves an
    event in a trace. *)

From Stdlib Require Import ZArith List String Ascii Bool Lia.
Import ListNotations.

Local Open Scope Z_scope.

(* ================================================================== *)
(** ** Bytes and Go strings *)

Module GoString.

(** The value of one byte of a Go string. *)
Definition byte_val (c : ascii) : Z := Z.of_N (N_of_ascii c).

(** The conversion [byte(x)]: the low eight bits. *)
Definition to_byte (x : Z) : Z := x mod 256.

Definition ascii_of_byte (b : Z) : ascii := ascii_of_N (Z.to_N (to_byte b)).

(** [[]byte(s)] *)
Fixpoint bytes_of_string (s : string) : list Z :=
  match s with
  | EmptyString => []
  | String c t => byte_val c :: bytes_of_string t
  end.

(** [string(b)] for a byte slice [b] *)
Fixpoint string_of_bytes (bs : list Z) : string :=
  match bs with
  | [] => EmptyString
  | b :: t => String (ascii_of_byte b) (string_of_bytes t)
  end.

Fixpoint drop (n : nat) (s : string) : string :=
  match n, s with
  | O, _ => s
  | S _, EmptyString => EmptyString
  | S n', String _ t => drop n' t
  end.

End GoString.

(* ================================================================== *)
(** ** UTF-8, as the Go runtime decodes and encodes it

    [[]rune(s)] decodes the string one rune at a time; a byte that does not
    start a well-formed sequence yields [RuneError] and is one byte wide.
    [string(r)] for a rune slice encodes every rune, an invalid one as
    [RuneError]. *)

Module utf8.
Import GoString.

Definition RuneError : Z := 0xFFFD.
Definition MaxRune : Z := 0x10FFFF.
Definition surrogateMin : Z := 0xD800.
Definition surrogateMax : Z := 0xDFFF.

Definition rune1Max : Z := 0x7F.
Definition rune2Max : Z := 0x7FF.
Definition rune3Max : Z := 0xFFFF.

Definition tx : Z := 0x80.
Definition t2 : Z := 0xC0.
Definition t3 : Z := 0xE0.
Definition t4 : Z := 0xF0.

Definition maskx : Z := 0x3F.
Definition mask2 : Z := 0x1F.
Definition mask3 : Z := 0x0F.
Definition mask4 : Z := 0x07.

Definition locb : Z := 0x80.
Definition hicb : Z := 0xBF.

(** The table [first] joined with [acceptRanges]: what the first byte of a
    sequence announces. *)
Inductive lead : Type :=
| LeadASCII
| LeadInvalid
| LeadMulti (size : nat) (lo hi : Z).

Definition first (b : Z) : lead :=
  if b <? 0x80 then LeadASCII
  else if b <? 0xC2 then LeadInvalid
  else if b <=? 0xDF then LeadMulti 2 locb hicb
  else if b =? 0xE0 then LeadMulti 3 0xA0 hicb
  else if b <=? 0xEC then LeadMulti 3 locb hicb
  else if b =? 0xED then LeadMulti 3 locb 0x9F
  else if b <=? 0xEF then LeadMulti 3 locb hicb
  else if b =? 0xF0 then LeadMulti 4 0x90 hicb
  else if b <=? 0xF3 then LeadMulti 4 locb hicb
  else if b =? 0xF4 then LeadMulti 4 locb 0x8F
  else LeadInvalid.

(** [utf8.DecodeRuneInString]: the rune at the head of [s] and its width in
    bytes. *)
Definition DecodeRuneInString (s : string) : Z * nat :=
  match s with
  | EmptyString => (RuneError, 0%nat)
  | String c0 t0 =>
    let s0 := byte_val c0 in
    match first s0 with
    | LeadASCII => (s0, 1%nat)
    | LeadInvalid => (RuneError, 1%nat)
    | LeadMulti sz lo hi =>
      if (String.length s <? sz)%nat then (RuneError, 1%nat) else
      match t0 with
      | EmptyString => (RuneError, 1%nat)
      | String c1 t1 =>
        let s1 := byte_val c1 in
        if (s1 <? lo) || (hi <? s1) then (RuneError, 1%nat) else
        if (sz <=? 2)%nat then
          (Z.lor (Z.shiftl (Z.land s0 mask2) 6) (Z.land s1 maskx), 2%nat)
        else
        match t1 with
        | EmptyString => (RuneError, 1%nat)
        | String c2 t2 =>
          let s2 := byte_val c2 in
          if (s2 <? locb) || (hicb <? s2) then (RuneError, 1%nat) else
          if (sz <=? 3)%nat then
            (Z.lor (Z.lor (Z.shiftl (Z.land s0 mask3) 12)
                          (Z.shiftl (Z.land s1 maskx) 6))
                   (Z.land s2 maskx), 3%nat)
          else
          match t2 with
          | EmptyString => (RuneError, 1%nat)
          | String c3 _ =>
            let s3 := byte_val c3 in
            if (s3 <? locb) || (hicb <? s3) then (RuneError, 1%nat) else
            (Z.lor (Z.lor (Z.lor (Z.shiftl (Z.land s0 mask4) 18)
                                 (Z.shiftl (Z.land s1 maskx) 12))
                          (Z.shiftl (Z.land s2 maskx) 6))
                   (Z.land s3 maskx), 4%nat)
          end
        end
      end
    end
  end.

(** [[]rune(s)].  Every step consumes at least one byte, so the length of
    the string is fuel enough. *)
Fixpoint runes_from (fuel : nat) (s : string) : list Z :=
  match fuel with
  | O => []
  | S fuel' =>
    match s with
    | EmptyString => []
    | String _ _ =>
      let '(r, w) := DecodeRuneInString s in
      r :: runes_from fuel' (drop w s)
    end
  end.

Definition runes_of_string (s : string) : list Z :=
  runes_from (String.length s) s.

(** [utf8.EncodeRune] (the runtime's [encoderune]): the bytes of one rune.
    [uint32(r)] is [r mod 2^32], so a negative rune is out of range.  An
    invalid rune becomes [RuneError] and falls through to the three-byte
    case. *)
Definition EncodeRune (r : Z) : list Z :=
  let i := r mod 2 ^ 32 in
  if i <=? rune1Max then [to_byte r]
  else if i <=? rune2Max then
    [Z.lor t2 (to_byte (Z.shiftr r 6)); Z.lor tx (Z.land (to_byte r) maskx)]
  else
    let invalid :=
      (MaxRune <? i) || ((surrogateMin <=? i) && (i <=? surrogateMax)) in
    let r := if invalid then RuneError else r in
    if invalid || (i <=? rune3Max) then
      [Z.lor t3 (to_byte (Z.shiftr r 12));
       Z.lor tx (Z.land (to_byte (Z.shiftr r 6)) maskx);
       Z.lor tx (Z.land (to_byte r) maskx)]
    else
      [Z.lor t4 (to_byte (Z.shiftr r 18));
       Z.lor tx (Z.land (to_byte (Z.shiftr r 12)) maskx);
       Z.lor tx (Z.land (to_byte (Z.shiftr r 6)) maskx);
       Z.lor tx (Z.land (to_byte r) maskx)].

(** [string(r)] for a rune slice [r]. *)
Definition string_of_runes (rs : list Z) : string :=
  string_of_bytes (flat_map EncodeRune rs).

End utf8.

(* ================================================================== *)
(** ** strconv.ParseUint

    The library function, for an explicit base (2 to 36), which is how the
    package calls it; the prefix detection of base 0 is outside this model,
    and base 0 is answered like any other base out of range. *)

Module strconv.
Import GoString.

Inductive NumError : Type :=
| ErrSyntax
| ErrRange
| ErrBase
| ErrBitSize.

Definition maxUint64 : Z := 2 ^ 64 - 1.

(** [lower(c)] is [c | ('x' - 'X')]. *)
Definition lower (c : Z) : Z := Z.lor c 0x20.

(** The digit a byte stands for, in any base. *)
Definition digit_of (c : Z) : option Z :=
  if (48 <=? c) && (c <=? 57) then Some (c - 48)
  else if (97 <=? lower c) && (lower c <=? 122) then Some (lower c - 97 + 10)
  else None.

Fixpoint parse_digits (bs : list Z) (base cutoff maxVal n : Z)
  : Z * option NumError :=
  match bs with
  | [] => (n, None)
  | c :: rest =>
    match digit_of c with
    | None => (0, Some ErrSyntax)
    | Some d =>
      if d >=? base then (0, Some ErrSyntax)
      else if n >=? cutoff then (maxVal, Some ErrRange)
      else
        let n' := (n * base) mod 2 ^ 64 in
        let n1 := (n' + d) mod 2 ^ 64 in
        if (n1 <? n') || (maxVal <? n1) then (maxVal, Some ErrRange)
        else parse_digits rest base cutoff maxVal n1
    end
  end.

Definition ParseUint (s : string) (base bitSize : Z) : Z * option NumError :=
  match s with
  | EmptyString => (0, Some ErrSyntax)
  | String _ _ =>
    if negb ((2 <=? base) && (base <=? 36)) then (0, Some ErrBase)
    else
      let bitSize := if bitSize =? 0 then 64 else bitSize in
      if (bitSize <? 0) || (64 <? bitSize) then (0, Some ErrBitSize)
      else
        let cutoff := maxUint64 / base + 1 in
        let maxVal := (Z.shiftl 1 bitSize mod 2 ^ 64 - 1) mod 2 ^ 64 in
        parse_digits (bytes_of_string s) base cutoff maxVal 0
  end.

End strconv.

(* ================================================================== *)
(** ** Slices

    A Go slice is [nil] or a sequence: the pipeline tells a [nil] thumbprint
    from an empty one, so the model keeps the difference. *)

Module slice.

Definition t (A : Type) : Type := option (list A).

Definition elems {A} (s : t A) : list A :=
  match s with
  | None => []
  | Some l => l
  end.

Definition len {A} (s : t A) : nat := List.length (elems s).

(** [make([]byte, n)]: [n] zero bytes. *)
Definition make (n : nat) : list Z := repeat 0 n.

(** [l[i] = v]; the callers only write inside the slice. *)
Fixpoint update {A} (l : list A) (i : nat) (v : A) : list A :=
  match l, i with
  | [], _ => []
  | _ :: t, O => v :: t
  | x :: t, S i' => x :: update t i' v
  end.

(** [l[lo:hi]] *)
Definition sub {A} (l : list A) (lo hi : nat) : list A :=
  firstn (hi - lo) (skipn lo l).

End slice.

(** [bytes.Compare]: -1, 0 or 1, lexicographically.  A [nil] slice is an
    empty one. *)
Fixpoint bytes_Compare (a b : list Z) : Z :=
  match a, b with
  | [], [] => 0
  | [], _ :: _ => -1
  | _ :: _, [] => 1
  | x :: a', y :: b' =>
    if x <? y then -1
    else if y <? x then 1
    else bytes_Compare a' b'
  end.

(* ================================================================== *)
(** ** Errors

    What a collaborator hands back through Go's [error] interface is a
    [syscall.Errno] or something else; the package adds the sentinel values
    of [extensionerrors] and the errors it builds with [fmt.Errorf]. *)

Inductive foreign_error : Type :=
| Errno (e : Z)
| OpaqueError (msg : string).

Inductive fmt_arg : Type :=
| ArgError (e : foreign_error)
| ArgErrno (e : Z).

Inductive error : Type :=
| Foreign (e : foreign_error)
| ErrMustRunAsAdmin
| ErrCertWithThumbprintNotFound
| ErrInvalidProtectedSettingsData
| Errorf (format : string) (args : list fmt_arg).

(** The names the specification gives to the failures of the pipeline. *)
Definition StoreAccessDenied (cause : foreign_error) : error :=
  Errorf "VMextension: Cannot open certificate store due to '%v'" [ArgError cause].
Definition PermissionRequired : error := ErrMustRunAsAdmin.
Definition InvalidThumbprint : error := Errorf "VmExtension: Invalid thumbprint" [].
Definition EnumerationFailed (cause : foreign_error) : error :=
  Errorf "VmExtension: Could not enumerate certificates due to '%v'" [ArgError cause].
Definition CertNotFound : error := ErrCertWithThumbprintNotFound.
Definition InvalidCiphertextFormat : error := ErrInvalidProtectedSettingsData.
Definition DecryptionFailed (errno : Z) : error :=
  Errorf "VmExtension: Could not decrypt data due to '%d'" [ArgErrno errno].
Definition HashingFailed (errno : Z) : error :=
  Errorf "VmExtension: Could not hash certificate due to '%d'" [ArgErrno errno].

(* ================================================================== *)
(** ** The thumbprint codec *)

Section Codec.
Import GoString.

(** The body of the [for count := 0; count < length; count++] loop, run
    [todo] more times from [count]. *)
Fixpoint decode_loop (todo count : nat) (runes parts : list Z) : list Z :=
  match todo with
  | O => parts
  | S todo' =>
    let r := slice.sub runes (count * 2) (count * 2 + 2) in
    let sp := utf8.string_of_runes r in
    let '(bp, err) := strconv.ParseUint sp 16 16 in
    let parts :=
      match err with
      | None => slice.update parts count (to_byte bp)
      | Some _ => parts
      end in
    decode_loop todo' (S count) runes parts
  end.

(** [thumbprintStringToHex]: the bytes and the error, which is [nil] on
    the only return of the function. *)
Definition thumbprintStringToHex (s : string) : list Z * option error :=
  let runes := utf8.runes_of_string s in
  let runes :=
    if (List.length runes mod 2 =? 1)%nat
    then skipn 1 (utf8.runes_of_string s)
    else runes in
  let length := (List.length runes / 2)%nat in
  let parts := slice.make length in
  (decode_loop length 0 runes parts, None).

End Codec.

(* ================================================================== *)
(** ** Effects: native calls, panics and [defer]

    A run yields an outcome and the trace of the native calls it made, in
    order.  [OutOfFuel] belongs to the model, not to the program: the
    enumeration loop is a [for] without bound, and its model stops there
    when it has run more rounds than it was given.

    One event is no native call: [EnterDecryptDataWithCert] records the
    arguments with which the pipeline calls [decryptDataWithCert], so that
    the certificate handed over can be told from the trace. *)

(** The address of a native certificate context; a [nil] pointer is
    [None]. *)
Definition CertContext : Type := Z.

Record cryptDecryptMessagePara : Type := {
  cbSize : Z;
  dwMsgAndCertEncodingType : Z;
  cCertStore : Z;
  rghCertStore : Z;   (* the handle the pointer refers to *)
  dwFlags : Z
}.

Inductive Event : Type :=
| CallCertOpenStore (storeProvider msgAndCertEncodingType cryptProv flags : Z)
                    (para : string)
| CallCertCloseStore (store flags : Z)
| CallCertEnumCertificatesInStore (store : Z) (prevContext : option CertContext)
| CallCertGetCertificateContextProperty
    (pCertContext : option CertContext) (dwPropId : Z)
    (pvData : option (list Z)) (pcbData : Z)
| CallCryptDecryptMessage
    (para : cryptDecryptMessagePara) (pbEncryptedBlob : list Z)
    (cbEncryptedBlob : Z) (pbDecrypted : option (list Z)) (pcbDecrypted : Z)
| EnterDecryptDataWithCert (cert : option CertContext) (storeHandle : Z).

Inductive Panic : Type :=
| IndexOutOfRange
| SliceBoundsOutOfRange.

Inductive Outcome (A : Type) : Type :=
| Returned (a : A)
| Panicked (p : Panic)
| OutOfFuel.

Arguments Returned {A} a.
Arguments Panicked {A} p.
Arguments OutOfFuel {A}.

Definition M (A : Type) : Type := (Outcome A * list Event)%type.

Definition ret {A} (a : A) : M A := (Returned a, []).

Definition bind {A B} (m : M A) (f : A -> M B) : M B :=
  match m with
  | (Returned a, t) => let '(o, t') := f a in (o, t ++ t')
  | (Panicked p, t) => (Panicked p, t)
  | (OutOfFuel, t) => (OutOfFuel, t)
  end.

Definition panic {A} (p : Panic) : M A := (Panicked p, []).

Definition out_of_fuel {A} : M A := (OutOfFuel, []).

(** A native call: the event, then the reply of the collaborator. *)
Definition call {A} (e : Event) (reply : A) : M A := (Returned reply, [e]).

(** [defer]: the deferred call runs when the function leaves, by [return]
    or by a panic. *)
Definition defer {A} (e : Event) (body : M A) : M A :=
  match body with
  | (OutOfFuel, t) => (OutOfFuel, t)
  | (o, t) => (o, t ++ [e])
  end.

Declare Scope go_scope.
Delimit Scope go_scope with go.
Notation "x <- m ;; k" := (bind m (fun x => k))
  (at level 61, m at next level, right associativity) : go_scope.
Notation "' p <- m ;; k" := (bind m (fun x => let 'p := x in k))
  (at level 61, p pattern, m at next level, right associativity) : go_scope.

Definition outcome {A} (m : M A) : Outcome A := fst m.
Definition trace {A} (m : M A) : list Event := snd m.

(* ================================================================== *)
(** ** The collaborators *)

(** What [CertGetCertificateContextProperty] and [CryptDecryptMessage]
    leave behind: the return value, the bytes written to the output buffer
    (none when the buffer is a null pointer), the count written through the
    size pointer and the last-error code. *)
Record Reply : Type := {
  raw : Z;
  written : list Z;
  count : Z;
  lastError : Z
}.

Record Native (V : Type) : Type := {
  CertOpenStore :
    Z -> Z -> Z -> Z -> string -> Z * option foreign_error;
  CertEnumCertificatesInStore :
    Z -> option CertContext -> option CertContext * option foreign_error;
  CertGetCertificateContextProperty :
    option CertContext -> Z -> option (list Z) -> Z -> Reply;
  CryptDecryptMessage :
    cryptDecryptMessagePara -> list Z -> Z -> option (list Z) -> Z -> Reply;
  json_Unmarshal :
    slice.t Z -> option V * option foreign_error
}.

Arguments CertOpenStore {V} _.
Arguments CertEnumCertificatesInStore {V} _.
Arguments CertGetCertificateContextProperty {V} _.
Arguments CryptDecryptMessage {V} _.
Arguments json_Unmarshal {V} _.

Definition uint32 (x : Z) : Z := x mod 2 ^ 32.

(** The buffer after a native call wrote [data] at its start. *)
Definition overwrite (buf data : list Z) : list Z :=
  firstn (List.length buf) (data ++ skipn (List.length data) buf).

Definition certHashPropID : Z := 3.
Definition crypteEAsn1BadTag : Z := 2148086027.
Definition crypteENotFound : Z := 0x80092004.

Definition CERT_STORE_PROV_SYSTEM : Z := 10.
Definition CERT_SYSTEM_STORE_LOCAL_MACHINE : Z := 0x00020000.
Definition X509_ASN_ENCODING : Z := 0x00000001.
Definition PKCS_7_ASN_ENCODING : Z := 0x00010000.

(* ================================================================== *)
(** ** The package *)

Section Package.
Context {V : Type} (w : Native V).
Local Open Scope go_scope.

(** [getCertificateThumbprint] *)
Definition getCertificateThumbprint (cert : option CertContext)
  : M (slice.t Z * option error) :=
  let cbComputedHash := 0 in
  r <- call (CallCertGetCertificateContextProperty
               cert certHashPropID None cbComputedHash)
            (CertGetCertificateContextProperty w
               cert certHashPropID None cbComputedHash) ;;
  if raw r =? 0 then ret (None, Some (HashingFailed (lastError r)))
  else
    let cbComputedHash := uint32 (count r) in
    if cbComputedHash =? 0 then ret (None, None)
    else
      let computedHashBuffer := slice.make (Z.to_nat cbComputedHash) in
      r <- call (CallCertGetCertificateContextProperty
                   cert certHashPropID (Some computedHashBuffer) cbComputedHash)
                (CertGetCertificateContextProperty w
                   cert certHashPropID (Some computedHashBuffer) cbComputedHash) ;;
      let computedHashBuffer := overwrite computedHashBuffer (written r) in
      if raw r =? 0 then ret (None, Some (HashingFailed (lastError r)))
      else ret (Some computedHashBuffer, None).

(** The local [cryptDecryptMessagePara] of [decryptDataWithCert], once its
    fields are assigned. *)
Definition decrypt_parameters (decoded : slice.t Z) (storeHandle : Z)
  : cryptDecryptMessagePara := {|
    cbSize := uint32 (Z.of_nat (slice.len decoded));
    dwMsgAndCertEncodingType :=
      uint32 (Z.lor X509_ASN_ENCODING PKCS_7_ASN_ENCODING);
    cCertStore := uint32 1;
    rghCertStore := storeHandle;
    dwFlags := uint32 0 |}.

(** [decryptDataWithCert] *)
Definition decryptDataWithCert
  (decoded : slice.t Z) (cert : option CertContext) (storeHandle : Z)
  : M (slice.t Z * option error) :=
  let para := decrypt_parameters decoded storeHandle in
  let cbDecryptedBlob := 0 in
  match slice.elems decoded with
  | [] => panic IndexOutOfRange   (* pbEncryptedBlob = &decoded[0] *)
  | _ :: _ =>
    let pbEncryptedBlob := slice.elems decoded in
    r <- call (CallCryptDecryptMessage para pbEncryptedBlob
                 (Z.of_nat (slice.len decoded)) None cbDecryptedBlob)
              (CryptDecryptMessage w para pbEncryptedBlob
                 (Z.of_nat (slice.len decoded)) None cbDecryptedBlob) ;;
    if raw r =? 0 then
      let errno := lastError r in
      if errno =? crypteEAsn1BadTag
      then ret (None, Some ErrInvalidProtectedSettingsData)
      else ret (None, Some (DecryptionFailed (lastError r)))
    else
      let cbDecryptedBlob := uint32 (count r) in
      if cbDecryptedBlob =? 0 then ret (None, None)
      else
        let decryptedBytes := slice.make (Z.to_nat cbDecryptedBlob) in
        r <- call (CallCryptDecryptMessage para pbEncryptedBlob
                     (Z.of_nat (slice.len decoded))
                     (Some decryptedBytes) cbDecryptedBlob)
                  (CryptDecryptMessage w para pbEncryptedBlob
                     (Z.of_nat (slice.len decoded))
                     (Some decryptedBytes) cbDecryptedBlob) ;;
        let decryptedBytes := overwrite decryptedBytes (written r) in
        let cbDecryptedBlob := uint32 (count r) in
        if raw r =? 0 then ret (None, Some (DecryptionFailed (lastError r)))
        else
          (* returnedBytes := decryptedBytes[:cbDecryptedBlob] *)
          if Z.of_nat (List.length decryptedBytes) <? cbDecryptedBlob
          then panic SliceBoundsOutOfRange
          else ret (Some (firstn (Z.to_nat cbDecryptedBlob) decryptedBytes), None)
  end.

(** How the [for] loop of the pipeline is left: by [break], with the flag
    [found] and the entry the loop's own [cert] holds at that moment, or by
    the [return] of an enumeration error. *)
Inductive LoopExit : Type :=
| LoopBreak (found : bool) (entry : option CertContext)
| LoopReturn (err : error).

Definition is_crypteENotFound (err : foreign_error) : bool :=
  match err with
  | Errno errno => errno =? crypteENotFound
  | OpaqueError _ => false
  end.

(** The [for] loop; [prevContext] is the cursor. *)
Fixpoint enumerate (fuel : nat) (handle : Z) (decodedThumbprint : list Z)
  (prevContext : option CertContext) : M LoopExit :=
  match fuel with
  | O => out_of_fuel
  | S fuel' =>
    '(cert, err) <- call (CallCertEnumCertificatesInStore handle prevContext)
                         (CertEnumCertificatesInStore w handle prevContext) ;;
    match err with
    | Some e =>
      if is_crypteENotFound e then ret (LoopBreak false cert)
      else ret (LoopReturn (EnumerationFailed e))
    | None =>
      match cert with
      | None => ret (LoopBreak false cert)
      | Some _ =>
        '(foundthumbprint, err) <- getCertificateThumbprint cert ;;
        match err, foundthumbprint with
        | None, Some candidate =>
          if bytes_Compare decodedThumbprint candidate =? 0
          then ret (LoopBreak true cert)
          else enumerate fuel' handle decodedThumbprint cert
        | _, _ => enumerate fuel' handle decodedThumbprint cert
        end
      end
    end
  end.

(** [DecryptProtectedSettings].  The [cert] given to the decryption is the
    variable of the function, declared before the loop; the loop declares
    its own [cert] with [:=] and never assigns the outer one. *)
Definition DecryptProtectedSettings (fuel : nat)
  (configFolder thumbprint : string) (decoded : slice.t Z)
  : M (option V * option error) :=
  '(handle, err) <-
     call (CallCertOpenStore CERT_STORE_PROV_SYSTEM 0 0
             CERT_SYSTEM_STORE_LOCAL_MACHINE "MY")
          (CertOpenStore w CERT_STORE_PROV_SYSTEM 0 0
             CERT_SYSTEM_STORE_LOCAL_MACHINE "MY") ;;
  match err with
  | Some e => ret (None, Some (StoreAccessDenied e))
  | None =>
    if handle =? 0 then ret (None, Some ErrMustRunAsAdmin)
    else
      defer (CallCertCloseStore handle 0)
        (let '(decodedThumbprint, err) := thumbprintStringToHex thumbprint in
         match err with
         | Some _ => ret (None, Some InvalidThumbprint)
         | None =>
           let cert : option CertContext := None in
           exit <- enumerate fuel handle decodedThumbprint None ;;
           match exit with
           | LoopReturn e => ret (None, Some e)
           | LoopBreak false _ => ret (None, Some ErrCertWithThumbprintNotFound)
           | LoopBreak true _ =>
             _ <- call (EnterDecryptDataWithCert cert handle) tt ;;
             '(decryptedBytes, err) <- decryptDataWithCert decoded cert handle ;;
             match err with
             | Some e => ret (None, Some e)
             | None =>
               let '(v, err) := json_Unmarshal w decryptedBytes in
               ret (v, option_map Foreign err)
             end
           end
         end)
  end.

End Package.

(* ================================================================== *)
(** ** The codec as the specification words it

    These definitions follow the specification, not the code: a pair of
    characters read as an unsigned 8-bit hexadecimal value, and the
    re-encoding of bytes as hexadecimal text. *)

Module CodecSpec.
Import GoString.

(** The value of one hexadecimal digit character. *)
Definition hex_digit_value (r : Z) : option Z :=
  if (48 <=? r) && (r <=? 57) then Some (r - 48)          (* 0-9 *)
  else if (97 <=? r) && (r <=? 102) then Some (r - 87)    (* a-f *)
  else if (65 <=? r) && (r <=? 70) then Some (r - 55)     (* A-F *)
  else None.

(** A two-character pair as an unsigned 8-bit value. *)
Definition hex_pair_u8 (hi lo : Z) : option Z :=
  match hex_digit_value hi, hex_digit_value lo with
  | Some h, Some l => Some (16 * h + l)
  | _, _ => None
  end.

(** The byte a pair contributes: its value, or zero when it does not
    parse. *)
Definition pair_byte (hi lo : Z) : Z :=
  match hex_pair_u8 hi lo with
  | Some v => v
  | None => 0
  end.

(** The characters left after an odd-length input lost its first one. *)
Definition effective (runes : list Z) : list Z :=
  if Nat.odd (List.length runes) then tl runes else runes.

(** All the pairs of a character sequence, in order. *)
Fixpoint decode_pairs (runes : list Z) : list Z :=
  match runes with
  | hi :: lo :: rest => pair_byte hi lo :: decode_pairs rest
  | _ => []
  end.

(** The hexadecimal digit for a value below sixteen, in either case. *)
Definition hex_digit (upper : bool) (d : Z) : Z :=
  if d <? 10 then 48 + d
  else if upper then 55 + d else 87 + d.

(** Re-encoding: two digits per byte, high nibble first. *)
Fixpoint hex_encode (upper : bool) (bs : list Z) : string :=
  match bs with
  | [] => EmptyString
  | b :: rest =>
    String (ascii_of_byte (hex_digit upper (b / 16)))
      (String (ascii_of_byte (hex_digit upper (b mod 16)))
         (hex_encode upper rest))
  end.

Definition lower_byte (c : Z) : Z :=
  if (65 <=? c) && (c <=? 90) then c + 32 else c.

Definition upper_byte (c : Z) : Z :=
  if (97 <=? c) && (c <=? 122) then c - 32 else c.

(** The same text with its ASCII letters in lower or in upper case. *)
Fixpoint to_lower (s : string) : string :=
  match s with
  | EmptyString => EmptyString
  | String c t => String (ascii_of_byte (lower_byte (byte_val c))) (to_lower t)
  end.

Fixpoint to_upper (s : string) : string :=
  match s with
  | EmptyString => EmptyString
  | String c t => String (ascii_of_byte (upper_byte (byte_val c))) (to_upper t)
  end.

Definition is_hex_char (c : ascii) : bool :=
  match hex_digit_value (byte_val c) with
  | Some _ => true
  | None => false
  end.

Fixpoint all_hex (s : string) : bool :=
  match s with
  | EmptyString => true
  | String c t => is_hex_char c && all_hex t
  end.

(** A well-formed thumbprint text: hexadecimal digits, an even number of
    them. *)
Definition valid_hex (s : string) : Prop :=
  all_hex s = true /\ Nat.even (String.length s) = true.

End CodecSpec.

(** The byte the loop of the codec stores for one pair of runes: the parsed
    value when [strconv.ParseUint] reports no error, the zero of [make]
    otherwise. *)
Definition stored_byte (hi lo : Z) : Z :=
  let '(bp, err) := strconv.ParseUint (utf8.string_of_runes [hi; lo]) 16 16 in
  match err with
  | None => GoString.to_byte bp
  | Some _ => 0
  end.

Definition stored_byte_agrees (hi lo : Z) : bool :=
  stored_byte hi lo =? CodecSpec.pair_byte hi lo.

(* ================================================================== *)
(** ** What the pipeline is observed by *)

Section Observations.
Context {V : Type} (w : Native V).

(** The reply to the size query of [getCertificateThumbprint], and to the
    query that fills the buffer of the announced size. *)
Definition hash_probe (cert : option CertContext) : Reply :=
  CertGetCertificateContextProperty w cert certHashPropID None 0.

Definition hash_fill (cert : option CertContext) : Reply :=
  let cb := uint32 (count (hash_probe cert)) in
  CertGetCertificateContextProperty w cert certHashPropID
    (Some (slice.make (Z.to_nat cb))) cb.

(** The same for the two calls of [decryptDataWithCert]. *)
Definition decrypt_probe (decoded : slice.t Z) (storeHandle : Z) : Reply :=
  CryptDecryptMessage w (decrypt_parameters decoded storeHandle)
    (slice.elems decoded) (Z.of_nat (slice.len decoded)) None 0.

Definition decrypt_fill (decoded : slice.t Z) (storeHandle : Z) : Reply :=
  let cb := uint32 (count (decrypt_probe decoded storeHandle)) in
  CryptDecryptMessage w (decrypt_parameters decoded storeHandle)
    (slice.elems decoded) (Z.of_nat (slice.len decoded))
    (Some (slice.make (Z.to_nat cb))) cb.

(** The reply to the one call that opens the store. *)
Definition open_reply : Z * option foreign_error :=
  CertOpenStore w CERT_STORE_PROV_SYSTEM 0 0
    CERT_SYSTEM_STORE_LOCAL_MACHINE "MY".

End Observations.

(** The event of that call. *)
Definition open_event : Event :=
  CallCertOpenStore CERT_STORE_PROV_SYSTEM 0 0
    CERT_SYSTEM_STORE_LOCAL_MACHINE "MY".

Definition is_close (e : Event) : bool :=
  match e with
  | CallCertCloseStore _ _ => true
  | _ => false
  end.

(** How many times a run closed a store. *)
Definition closes (t : list Event) : nat :=
  List.length (filter is_close t).

(** The certificates a run handed to the decryption. *)
Fixpoint decryption_certificates (t : list Event)
  : list (option CertContext) :=
  match t with
  | [] => []
  | EnterDecryptDataWithCert cert _ :: t' => cert :: decryption_certificates t'
  | _ :: t' => decryption_certificates t'
  end.

(* ================================================================== *)
(** ** A store for tests

    A stand-in for the collaborators: a store with a list of certificates,
    the context of the entry at position [i] being the address [i + 1].
    Each entry carries its thumbprint property, or nothing when the property
    query fails for it.  Past the last entry the enumeration returns a
    [nil] context, with the error [fs_end] when there is one.  The two
    replies of the message decryption are fixed. *)

Record FakeStore : Type := {
  fs_open : Z * option foreign_error;
  fs_certs : list (option (list Z));
  fs_end : option foreign_error;
  fs_probe : Reply;
  fs_fill : Reply
}.

Definition fake_enum (certs : list (option (list Z)))
  (last : option foreign_error) (prevContext : option CertContext)
  : option CertContext * option foreign_error :=
  let i := match prevContext with
           | None => 0%nat
           | Some c => Z.to_nat c
           end in
  if (i <? List.length certs)%nat
  then (Some (Z.of_nat (S i)), None)
  else (None, last).

Definition fake_property (certs : list (option (list Z)))
  (cert : option CertContext) (pvData : option (list Z)) : Reply :=
  match cert with
  | None => {| raw := 0; written := []; count := 0; lastError := 87 |}
  | Some c =>
    match nth_error certs (Z.to_nat c - 1) with
    | Some (Some hash) =>
      {| raw := 1;
         written := match pvData with None => [] | Some _ => hash end;
         count := Z.of_nat (List.length hash);
         lastError := 0 |}
    | _ => {| raw := 0; written := []; count := 0; lastError := crypteENotFound |}
    end
  end.

Definition fake_native (s : FakeStore) : Native (list Z) := {|
  CertOpenStore := fun _ _ _ _ _ => fs_open s;
  CertEnumCertificatesInStore :=
    fun _ prev => fake_enum (fs_certs s) (fs_end s) prev;
  CertGetCertificateContextProperty :=
    fun cert _ pvData _ => fake_property (fs_certs s) cert pvData;
  CryptDecryptMessage :=
    fun _ _ _ pbDecrypted _ =>
      match pbDecrypted with
      | None => fs_probe s
      | Some _ => fs_fill s
      end;
  json_Unmarshal :=
    fun data =>
      match data with
      | None => (None, Some (OpaqueError "unexpected end of JSON input"))
      | Some l => (Some l, None)
      end
|}.

Definition reply_ok (data : list Z) : Reply :=
  {| raw := 1; written := data; count := Z.of_nat (List.length data);
     lastError := 0 |}.

Definition reply_failed (errno : Z) : Reply :=
  {| raw := 0; written := []; count := 0; lastError := errno |}.

(** One certificate with thumbprint AB 12, and a message that decrypts to
    two bytes. *)
Definition store_one : FakeStore := {|
  fs_open := (700, None);
  fs_end := Some (Errno crypteENotFound);
  fs_certs := [Some [0xAB; 0x12]];
  fs_probe := reply_ok [0; 0];
  fs_fill := reply_ok [123; 125]
|}.

(** No certificate at all. *)
Definition store_empty : FakeStore := {|
  fs_open := (700, None);
  fs_end := Some (Errno crypteENotFound);
  fs_certs := [];
  fs_probe := reply_ok [0; 0];
  fs_fill := reply_ok [123; 125]
|}.

(** Three certificates; the second cannot be hashed, the third matches
    AB 12. *)
Definition store_three : FakeStore := {|
  fs_open := (700, None);
  fs_end := Some (Errno crypteENotFound);
  fs_certs := [Some [0x01; 0x02]; None; Some [0xAB; 0x12]];
  fs_probe := reply_ok [0; 0];
  fs_fill := reply_ok [123; 125]
|}.

(** One certificate whose thumbprint property has size zero. *)
Definition store_zero : FakeStore := {|
  fs_open := (700, None);
  fs_end := Some (Errno crypteENotFound);
  fs_certs := [Some []];
  fs_probe := reply_ok [];
  fs_fill := reply_ok []
|}.

Definition with_open (s : FakeStore) (o : Z * option foreign_error)
  : FakeStore :=
  {| fs_open := o; fs_certs := fs_certs s; fs_end := fs_end s;
     fs_probe := fs_probe s; fs_fill := fs_fill s |}.

Definition with_end (s : FakeStore) (last : option foreign_error)
  : FakeStore :=
  {| fs_open := fs_open s; fs_certs := fs_certs s; fs_end := last;
     fs_probe := fs_probe s; fs_fill := fs_fill s |}.

Definition with_decrypt (s : FakeStore) (probe fill : Reply) : FakeStore :=
  {| fs_open := fs_open s; fs_certs := fs_certs s; fs_end := fs_end s;
     fs_probe := probe; fs_fill := fill |}.

(** How the loop is left at the end of a test store. *)
Definition end_exit (last : option foreign_error) : LoopExit :=
  match last with
  | None => LoopBreak false None
  | Some e =>
    if is_crypteENotFound e then LoopBreak false None
    else LoopReturn (EnumerationFailed e)
  end.

(** The cursor after [i] entries of a test store were enumerated. *)
Definition cursor (i : nat) : option CertContext :=
  match i with
  | O => None
  | S _ => Some (Z.of_nat i)
  end.

(** An entry the resolver takes for the target: its thumbprint property is
    not empty and has the bytes of the target. *)
Definition entry_matches (target : list Z) (entry : option (list Z)) : bool :=
  match entry with
  | Some (b :: hash) => bytes_Compare target (b :: hash) =? 0
  | _ => false
  end.

(** The position of the first such entry, counted from [pos]. *)
Fixpoint first_match (target : list Z) (certs : list (option (list Z)))
  (pos : nat) : option nat :=
  match certs with
  | [] => None
  | entry :: rest =>
    if entry_matches target entry then Some pos
    else first_match target rest (S pos)
  end.

(** Thumbprint properties whose size fits the 32-bit count. *)
Definition small_hashes (certs : list (option (list Z))) : Prop :=
  Forall (fun entry =>
            match entry with
            | Some hash => Z.of_nat (List.length hash) < 2 ^ 32
            | None => True
            end) certs.

(** The errors of the taxonomy of the pipeline.  An enumeration failure
    never carries the end-of-store code. *)
Inductive pipeline_error : error -> Prop :=
| PE_StoreAccessDenied (e : foreign_error) :
    pipeline_error (StoreAccessDenied e)
| PE_PermissionRequired : pipeline_error PermissionRequired
| PE_EnumerationFailed (e : foreign_error) :
    is_crypteENotFound e = false -> pipeline_error (EnumerationFailed e)
| PE_CertNotFound : pipeline_error CertNotFound
| PE_InvalidCiphertextFormat : pipeline_error InvalidCiphertextFormat
| PE_DecryptionFailed (errno : Z) : pipeline_error (DecryptionFailed errno)
| PE_DeserializationFailed (e : foreign_error) : pipeline_error (Foreign e).

(* ================================================================== *)
(** ** Stores as they are enumerated

    What the collaborators do is not in the package; these definitions say
    how a store answers, so that properties of the resolver can be stated
    for every collaborator that answers so. *)

Section Resolution.
Context {V : Type} (w : Native V).

(** The reply that makes the loop leave without going on to a further
    entry: an error, or a [nil] entry. *)
Definition is_end (reply : option CertContext * option foreign_error) : bool :=
  match reply with
  | (Some _, None) => false
  | _ => true
  end.

(** From the cursor [prev] the store hands out the entries [cs], one per
    call and each call given the entry before, and then answers [last]. *)
Fixpoint enumerates (h : Z) (prev : option CertContext)
  (cs : list CertContext)
  (last : option CertContext * option foreign_error) : Prop :=
  match cs with
  | [] => CertEnumCertificatesInStore w h prev = last /\ is_end last = true
  | c :: cs' =>
    CertEnumCertificatesInStore w h prev = (Some c, None) /\
    enumerates h (Some c) cs' last
  end.

(** The property query gives the entry [c] a thumbprint, without error,
    and it has the bytes of the target. *)
Definition thumbprint_matches (target : list Z) (c : CertContext) : bool :=
  match outcome (getCertificateThumbprint w (Some c)) with
  | Returned (Some candidate, None) => bytes_Compare target candidate =? 0
  | _ => false
  end.

(** How the loop is left on the reply that ends the enumeration. *)
Definition reply_exit (last : option CertContext * option foreign_error)
  : LoopExit :=
  match last with
  | (cert, Some e) =>
    if is_crypteENotFound e then LoopBreak false cert
    else LoopReturn (EnumerationFailed e)
  | (cert, None) => LoopBreak false cert
  end.

(** The first entry that matches, or the exit at the end. *)
Fixpoint resolution (target : list Z) (cs : list CertContext)
  (last : option CertContext * option foreign_error) : LoopExit :=
  match cs with
  | [] => reply_exit last
  | c :: cs' =>
    if thumbprint_matches target c then LoopBreak true (Some c)
    else resolution target cs' last
  end.

(** What follows a match: the decryption with the outer [cert], which is
    [nil], then the deserialization. *)
Definition decrypt_and_parse (decoded : slice.t Z) (h : Z)
  : Outcome (option V * option error) :=
  match outcome (decryptDataWithCert w decoded None h) with
  | Returned (_, Some e) => Returned (None, Some e)
  | Returned (decryptedBytes, None) =>
    Returned (fst (json_Unmarshal w decryptedBytes),
              option_map Foreign (snd (json_Unmarshal w decryptedBytes)))
  | Panicked p => Panicked p
  | OutOfFuel => OutOfFuel
  end.

(** The cursors of the enumeration calls of a trace follow one another:
    each call is given the entry the call before returned. *)
Fixpoint chained (h : Z) (prev : option CertContext)
  (cursors : list (option CertContext)) : Prop :=
  match cursors with
  | [] => True
  | p :: rest =>
    p = prev /\ chained h (fst (CertEnumCertificatesInStore w h p)) rest
  end.

End Resolution.

(** The cursors of the enumeration calls of a trace, in order. *)
Fixpoint enum_cursors (t : list Event) : list (option CertContext) :=
  match t with
  | [] => []
  | CallCertEnumCertificatesInStore _ prev :: t' => prev :: enum_cursors t'
  | _ :: t' => enum_cursors t'
  end.

(** An event of a session on the store [h]: the store calls name [h], the
    decryption is given [h] as its one store, the property queries ask for
    the hash property. *)
Definition on_store (h : Z) (e : Event) : bool :=
  match e with
  | CallCertOpenStore _ _ _ _ _ => false
  | CallCertCloseStore store _ => store =? h
  | CallCertEnumCertificatesInStore store _ => store =? h
  | CallCertGetCertificateContextProperty _ dwPropId _ _ =>
    dwPropId =? certHashPropID
  | CallCryptDecryptMessage para _ _ _ _ =>
    (rghCertStore para =? h) && (cCertStore para =? 1)
  | EnterDecryptDataWithCert _ storeHandle => storeHandle =? h
  end.

Definition is_decrypt_message (e : Event) : bool :=
  match e with
  | CallCryptDecryptMessage _ _ _ _ _ => true
  | _ => false
  end.

(** The UTF-8 byte order mark, EF BB BF. *)
Definition byte_order_mark : string :=
  String "239" (String "187" (String "191" EmptyString)).

(** A test store whose property query answers the size query with [probe]
    and the query with a buffer with [fill], whatever the certificate. *)
Definition native_with_property (s : FakeStore) (probe fill : Reply)
  : Native (list Z) := {|
  CertOpenStore := CertOpenStore (fake_native s);
  CertEnumCertificatesInStore := CertEnumCertificatesInStore (fake_native s);
  CertGetCertificateContextProperty :=
    fun _ _ pvData _ =>
      match pvData with
      | None => probe
      | Some _ => fill
      end;
  CryptDecryptMessage := CryptDecryptMessage (fake_native s);
  json_Unmarshal := json_Unmarshal (fake_native s)
|}.

(** The answer of a store at its end, by the end-of-store code. *)
Definition end_of_store : option CertContext * option foreign_error :=
  (None, Some (Errno crypteENotFound)).

(** A message whose second decryption call reports more bytes than the
    first announced. *)
Definition store_growing : FakeStore :=
  with_decrypt store_one (reply_ok [0]) (reply_ok [1; 2; 3]).

(** A message that decrypts to nothing. *)
Definition store_blank : FakeStore :=
  with_decrypt store_one (reply_ok []) (reply_ok []).



(* ================================================================== *)
(** * Properties *)

(** ** Bytes *)

Section ByteFacts.
Import GoString.

Lemma byte_val_range (c : ascii) : 0 <= byte_val c < 256.
Proof.
  unfold byte_val. pose proof (N_ascii_bounded c). lia.
Qed.

Lemma byte_val_ascii_of_byte (b : Z) :
  0 <= b < 256 -> byte_val (ascii_of_byte b) = b.
Proof.
  intros Hb. unfold byte_val, ascii_of_byte, to_byte.
  rewrite Z.mod_small by lia.
  rewrite N_ascii_embedding by lia. lia.
Qed.

Lemma ascii_of_byte_val (c : ascii) : ascii_of_byte (byte_val c) = c.
Proof.
  unfold ascii_of_byte, byte_val, to_byte.
  pose proof (N_ascii_bounded c).
  rewrite Z.mod_small by lia.
  rewrite N2Z.id. apply ascii_N_embedding.
Qed.

Lemma bytes_of_string_of_bytes (bs : list Z) :
  Forall (fun b => 0 <= b < 256) bs ->
  bytes_of_string (string_of_bytes bs) = bs.
Proof.
  induction 1 as [|b bs Hb _ IH]; simpl; [reflexivity|].
  now rewrite byte_val_ascii_of_byte, IH.
Qed.

Lemma bytes_of_string_length (s : string) :
  List.length (bytes_of_string s) = String.length s.
Proof. induction s; simpl; congruence. Qed.

(** Checking a property of every number below a bound by running it. *)
Lemma below_all (P : Z -> bool) (n : nat) :
  forallb P (map Z.of_nat (seq 0 n)) = true ->
  forall z, 0 <= z < Z.of_nat n -> P z = true.
Proof.
  intros H z Hz. rewrite forallb_forall in H. apply H.
  apply in_map_iff. exists (Z.to_nat z). split; [lia|].
  apply in_seq. lia.
Qed.

End ByteFacts.

(** ** UTF-8 *)

Section Utf8Facts.
Import GoString utf8.

Lemma lor_below_pow2 (n a b : Z) :
  0 <= a < 2 ^ n -> 0 <= b < 2 ^ n -> 0 <= Z.lor a b < 2 ^ n.
Proof.
  intros Ha Hb.
  assert (Hnn : 0 <= Z.lor a b) by (apply Z.lor_nonneg; lia).
  split; [exact Hnn|].
  destruct (Z.eq_dec a 0) as [->|Na]; [now rewrite Z.lor_0_l|].
  destruct (Z.eq_dec b 0) as [->|Nb]; [now rewrite Z.lor_0_r|].
  destruct (Z.eq_dec (Z.lor a b) 0) as [E|NE]; [lia|].
  apply Z.log2_lt_pow2; [lia|].
  rewrite Z.log2_lor by lia.
  apply Z.max_lub_lt; apply Z.log2_lt_pow2; lia.
Qed.

Lemma masked_shift_below (a k sh : Z) :
  0 <= k -> 0 <= sh ->
  0 <= Z.shiftl (Z.land a (Z.ones k)) sh < 2 ^ (k + sh).
Proof.
  intros Hk Hsh.
  rewrite Z.land_ones by lia.
  rewrite Z.shiftl_mul_pow2 by lia.
  rewrite Z.pow_add_r by lia.
  pose proof (Z.mod_pos_bound a (2 ^ k) ltac:(apply Z.pow_pos_nonneg; lia)).
  assert (0 < 2 ^ sh) by (apply Z.pow_pos_nonneg; lia).
  nia.
Qed.

Lemma masked_below (a k : Z) :
  0 <= k -> 0 <= Z.land a (Z.ones k) < 2 ^ k.
Proof.
  intros Hk. rewrite Z.land_ones by lia.
  apply Z.mod_pos_bound. apply Z.pow_pos_nonneg; lia.
Qed.

Lemma below_weaken (x k n : Z) :
  0 <= k <= n -> 0 <= x < 2 ^ k -> 0 <= x < 2 ^ n.
Proof.
  intros Hk Hx. split; [lia|].
  apply Z.lt_le_trans with (2 ^ k); [lia|].
  apply Z.pow_le_mono_r; lia.
Qed.

(** A decoded rune is a code point of at most 21 bits. *)
Lemma DecodeRuneInString_range (s : string) :
  0 <= fst (DecodeRuneInString s) < 2 ^ 21.
Proof.
  assert (HE : 0 <= RuneError < 2 ^ 21) by (unfold RuneError; lia).
  unfold DecodeRuneInString.
  destruct s as [|c0 t0]; [exact HE|].
  pose proof (byte_val_range c0) as H0.
  destruct (first (byte_val c0)) as [| |sz lo hi];
    [cbn [fst]; lia|exact HE|].
  destruct (String.length (String c0 t0) <? sz)%nat; [exact HE|].
  destruct t0 as [|c1 t1]; [exact HE|].
  destruct ((byte_val c1 <? lo) || (hi <? byte_val c1)); [exact HE|].
  destruct (sz <=? 2)%nat.
  { cbn [fst]. apply lor_below_pow2.
    - apply below_weaken with (k := 5 + 6); [lia|].
      apply (masked_shift_below _ 5 6); lia.
    - apply below_weaken with (k := 6); [lia|].
      apply (masked_below _ 6); lia. }
  destruct t1 as [|c2 t2]; [exact HE|].
  destruct ((byte_val c2 <? locb) || (hicb <? byte_val c2)); [exact HE|].
  destruct (sz <=? 3)%nat.
  { cbn [fst]. repeat apply lor_below_pow2.
    - apply below_weaken with (k := 4 + 12); [lia|].
      apply (masked_shift_below _ 4 12); lia.
    - apply below_weaken with (k := 6 + 6); [lia|].
      apply (masked_shift_below _ 6 6); lia.
    - apply below_weaken with (k := 6); [lia|].
      apply (masked_below _ 6); lia. }
  destruct t2 as [|c3 t3]; [exact HE|].
  destruct ((byte_val c3 <? locb) || (hicb <? byte_val c3)); [exact HE|].
  cbn [fst]. repeat apply lor_below_pow2.
  - apply (masked_shift_below _ 3 18); lia.
  - apply below_weaken with (k := 6 + 12); [lia|].
    apply (masked_shift_below _ 6 12); lia.
  - apply below_weaken with (k := 6 + 6); [lia|].
    apply (masked_shift_below _ 6 6); lia.
  - apply below_weaken with (k := 6); [lia|].
    apply (masked_below _ 6); lia.
Qed.

Lemma runes_from_range (fuel : nat) (s : string) :
  Forall (fun r => 0 <= r < 2 ^ 21) (runes_from fuel s).
Proof.
  revert s. induction fuel as [|fuel IH]; intros s; simpl; [constructor|].
  destruct s as [|c t]; [constructor|].
  pose proof (DecodeRuneInString_range (String c t)) as Hr.
  destruct (DecodeRuneInString (String c t)) as [r w].
  constructor; [exact Hr|apply IH].
Qed.

Lemma runes_of_string_range (s : string) :
  Forall (fun r => 0 <= r < 2 ^ 21) (runes_of_string s).
Proof. apply runes_from_range. Qed.

(** A string of ASCII bytes decodes to its own bytes. *)
Lemma runes_from_ascii (fuel : nat) (s : string) :
  (String.length s <= fuel)%nat ->
  Forall (fun b => b < 128) (bytes_of_string s) ->
  runes_from fuel s = bytes_of_string s.
Proof.
  revert s. induction fuel as [|fuel IH]; intros s Hlen Hs.
  - destruct s; simpl in *; [reflexivity|lia].
  - destruct s as [|c t]; [reflexivity|].
    simpl in Hs. inversion Hs as [|? ? Hc Ht]; subst.
    cbn [runes_from].
    unfold DecodeRuneInString, first.
    replace (byte_val c <? 128) with true by (symmetry; apply Z.ltb_lt; lia).
    cbn [drop bytes_of_string]. f_equal.
    apply IH; [simpl in Hlen; lia|exact Ht].
Qed.

Lemma runes_of_string_ascii (s : string) :
  Forall (fun b => b < 128) (bytes_of_string s) ->
  runes_of_string s = bytes_of_string s.
Proof. intros. now apply runes_from_ascii. Qed.

(** The encoding of an ASCII rune is the rune. *)
Lemma EncodeRune_ascii (r : Z) :
  0 <= r < 128 -> EncodeRune r = [r].
Proof.
  intros Hr. unfold EncodeRune, rune1Max, to_byte.
  rewrite (Z.mod_small r (2 ^ 32)) by lia.
  replace (r <=? 127) with true by (symmetry; apply Z.leb_le; lia).
  now rewrite Z.mod_small by lia.
Qed.

Lemma lor_tag_high (tag x : Z) :
  In tag [tx; t2; t3; t4] -> 0 <= x < 256 ->
  128 <= Z.lor tag x < 256.
Proof.
  intros Ht Hx.
  assert (H : forall z, 0 <= z < Z.of_nat 256 ->
            (fun z => forallb (fun t => (128 <=? Z.lor t z) && (Z.lor t z <? 256))
                        [tx; t2; t3; t4]) z = true)
    by (apply below_all; vm_compute; reflexivity).
  specialize (H x ltac:(lia)). cbv beta in H.
  rewrite forallb_forall in H. specialize (H tag Ht).
  apply andb_true_iff in H. destruct H as [H1 H2].
  apply Z.leb_le in H1. apply Z.ltb_lt in H2. lia.
Qed.

Lemma land_maskx_byte (x : Z) : 0 <= Z.land (to_byte x) maskx < 256.
Proof.
  change maskx with (Z.ones 6).
  pose proof (masked_below (to_byte x) 6 ltac:(lia)). lia.
Qed.

Lemma to_byte_range (x : Z) : 0 <= to_byte x < 256.
Proof. unfold to_byte. apply Z.mod_pos_bound. lia. Qed.

(** Every byte of the encoding of a rune outside ASCII has its high bit
    set. *)
Lemma EncodeRune_high (r : Z) :
  0 <= r < 2 ^ 32 -> 128 <= r ->
  EncodeRune r <> [] /\
  Forall (fun b => 128 <= b < 256) (EncodeRune r).
Proof.
  intros Hr Hhi. unfold EncodeRune.
  rewrite (Z.mod_small r (2 ^ 32)) by lia.
  replace (r <=? rune1Max) with false
    by (symmetry; apply Z.leb_gt; unfold rune1Max; lia).
  destruct (r <=? rune2Max).
  { split; [discriminate|].
    repeat constructor;
      apply lor_tag_high; simpl; auto using to_byte_range, land_maskx_byte. }
  cbv zeta.
  destruct ((MaxRune <? r) || ((surrogateMin <=? r) && (r <=? surrogateMax)) || (r <=? rune3Max)).
  { split; [discriminate|].
    repeat constructor;
      apply lor_tag_high; simpl; auto using to_byte_range, land_maskx_byte. }
  split; [discriminate|].
  repeat constructor;
    apply lor_tag_high; simpl; auto 6 using to_byte_range, land_maskx_byte.
Qed.

End Utf8Facts.

(** ** strconv.ParseUint on the pairs of the codec *)

Section ParseFacts.
Import GoString utf8 strconv CodecSpec.

Lemma digit_of_high (b : Z) : 128 <= b < 256 -> digit_of b = None.
Proof.
  intros Hb.
  assert (H : forall z, 0 <= z < Z.of_nat 256 ->
            (fun z => (z <? 128) ||
                      match digit_of z with None => true | Some _ => false end)
              z = true)
    by (apply below_all; vm_compute; reflexivity).
  specialize (H b ltac:(lia)). cbv beta in H.
  apply orb_true_iff in H. destruct H as [H|H].
  - apply Z.ltb_lt in H. lia.
  - destruct (digit_of b); [discriminate|reflexivity].
Qed.

(** A byte that is no digit makes the whole parse fail. *)
Lemma parse_digits_bad (bs : list Z) (base cutoff maxVal n : Z) :
  Exists (fun c => digit_of c = None) bs ->
  exists v e, parse_digits bs base cutoff maxVal n = (v, Some e).
Proof.
  revert n. induction bs as [|c rest IH]; intros n Hbad.
  - inversion Hbad.
  - cbn [parse_digits].
    destruct (digit_of c) as [d|] eqn:Hd; [|eauto].
    destruct (d >=? base); [eauto|].
    destruct (n >=? cutoff); [eauto|].
    cbv zeta.
    destruct (_ || _); [eauto|].
    apply IH. inversion Hbad; subst; [congruence|assumption].
Qed.

Lemma ParseUint_bad (s : string) :
  Exists (fun c => digit_of c = None) (bytes_of_string s) ->
  exists v e, ParseUint s 16 16 = (v, Some e).
Proof.
  intros Hbad. destruct s as [|c t]; [inversion Hbad|].
  unfold ParseUint.
  change (negb ((2 <=? 16) && (16 <=? 36))) with false. cbv iota.
  change (16 =? 0) with false. cbv iota zeta.
  change ((16 <? 0) || (64 <? 16)) with false. cbv iota.
  now apply parse_digits_bad.
Qed.

Lemma EncodeRune_bytes (r : Z) :
  0 <= r < 2 ^ 32 -> Forall (fun b => 0 <= b < 256) (EncodeRune r).
Proof.
  intros Hr. destruct (Z_lt_ge_dec r 128) as [Hlo|Hhi].
  - rewrite EncodeRune_ascii by lia. repeat constructor; lia.
  - destruct (EncodeRune_high r Hr ltac:(lia)) as [_ H].
    eapply Forall_impl; [|exact H]. cbv beta. intros; lia.
Qed.

Lemma bytes_of_string_of_runes (rs : list Z) :
  Forall (fun r => 0 <= r < 2 ^ 32) rs ->
  bytes_of_string (string_of_runes rs) = flat_map EncodeRune rs.
Proof.
  intros Hrs. unfold string_of_runes.
  apply bytes_of_string_of_bytes.
  induction Hrs as [|r rs Hr _ IH]; simpl; [constructor|].
  apply Forall_app. split; [now apply EncodeRune_bytes|exact IH].
Qed.

Lemma hex_digit_value_high (r : Z) : 128 <= r -> hex_digit_value r = None.
Proof.
  intros Hr. unfold hex_digit_value.
  replace (r <=? 57) with false by (symmetry; apply Z.leb_gt; lia).
  replace (r <=? 102) with false by (symmetry; apply Z.leb_gt; lia).
  replace (r <=? 70) with false by (symmetry; apply Z.leb_gt; lia).
  now rewrite !andb_false_r.
Qed.

Lemma stored_byte_bad (hi lo : Z) :
  Exists (fun c => digit_of c = None)
         (bytes_of_string (string_of_runes [hi; lo])) ->
  stored_byte hi lo = 0.
Proof.
  intros Hbad. unfold stored_byte.
  destruct (ParseUint_bad _ Hbad) as (v & e & ->). reflexivity.
Qed.

Lemma stored_byte_ascii (hi lo : Z) :
  0 <= hi < 128 -> 0 <= lo < 128 ->
  stored_byte hi lo = pair_byte hi lo.
Proof.
  intros Hhi Hlo.
  assert (H : forall z, 0 <= z < Z.of_nat 128 ->
            (fun a => forallb (fun b => stored_byte_agrees a b)
                        (map Z.of_nat (seq 0 128))) z = true)
    by (apply below_all; vm_compute; reflexivity).
  specialize (H hi ltac:(lia)). cbv beta in H.
  pose proof (below_all _ _ H lo ltac:(lia)) as E.
  unfold stored_byte_agrees in E. now apply Z.eqb_eq in E.
Qed.

(** What the loop stores for a pair is the unsigned 8-bit value of the
    pair, or zero when the pair does not parse. *)
Lemma stored_byte_spec (hi lo : Z) :
  0 <= hi < 2 ^ 32 -> 0 <= lo < 2 ^ 32 ->
  stored_byte hi lo = pair_byte hi lo.
Proof.
  intros Hhi Hlo.
  destruct (Z_lt_ge_dec hi 128) as [Hh|Hh];
    [destruct (Z_lt_ge_dec lo 128) as [Hl|Hl]|].
  - apply stored_byte_ascii; lia.
  - unfold pair_byte, hex_pair_u8.
    rewrite (hex_digit_value_high lo) by lia.
    rewrite stored_byte_bad.
    + now destruct (hex_digit_value hi).
    + rewrite bytes_of_string_of_runes by (repeat constructor; lia).
      cbn [flat_map]. rewrite app_nil_r.
      apply Exists_app. right.
      destruct (EncodeRune_high lo Hlo ltac:(lia)) as [Hne Hall].
      destruct (EncodeRune lo) as [|b bs]; [congruence|].
      inversion Hall; subst. constructor. now apply digit_of_high.
  - unfold pair_byte, hex_pair_u8.
    rewrite (hex_digit_value_high hi) by lia.
    rewrite stored_byte_bad; [reflexivity|].
    rewrite bytes_of_string_of_runes by (repeat constructor; lia).
    cbn [flat_map]. apply Exists_app. left.
    destruct (EncodeRune_high hi Hhi ltac:(lia)) as [Hne Hall].
    destruct (EncodeRune hi) as [|b bs]; [congruence|].
    inversion Hall; subst. constructor. now apply digit_of_high.
Qed.

Lemma pair_byte_range (hi lo : Z) : 0 <= pair_byte hi lo < 256.
Proof.
  unfold pair_byte, hex_pair_u8, hex_digit_value.
  repeat match goal with
  | |- context [if ?b then _ else _] => destruct b eqn:?
  end; lia.
Qed.

End ParseFacts.

(** ** The thumbprint codec *)

Section CodecFacts.
Import GoString CodecSpec.

Lemma update_at_end (done rest : list Z) (x v : Z) :
  slice.update (done ++ x :: rest) (List.length done) v = done ++ v :: rest.
Proof.
  induction done as [|d done IH]; cbn [slice.update app List.length];
    [reflexivity|]. now rewrite IH.
Qed.

Lemma sub_pair (before rest : list Z) (hi lo : Z) :
  slice.sub (before ++ hi :: lo :: rest)
            (List.length before) (List.length before + 2) = [hi; lo].
Proof.
  unfold slice.sub.
  replace (List.length before + 2 - List.length before)%nat with 2%nat by lia.
  rewrite skipn_app, Nat.sub_diag, skipn_all. reflexivity.
Qed.

Lemma decode_pairs_length (runes : list Z) :
  List.length (decode_pairs runes) = (List.length runes / 2)%nat.
Proof.
  assert (H : forall n (l : list Z), (List.length l <= n)%nat ->
              List.length (decode_pairs l) = (List.length l / 2)%nat).
  { induction n as [|n IH]; intros l Hl.
    - destruct l; [reflexivity|simpl in Hl; lia].
    - destruct l as [|a [|b l]]; [reflexivity|reflexivity|].
      cbn [decode_pairs List.length].
      rewrite IH by (simpl in Hl; lia).
      change (S (S (List.length l))) with (2 + List.length l)%nat.
      replace (2 + List.length l)%nat with (List.length l + 1 * 2)%nat by lia.
      rewrite Nat.div_add by lia. lia. }
  now apply (H (List.length runes)).
Qed.

(** The loop, once [done] bytes are written and the runes [before] are
    behind: it appends the byte of each further pair. *)
Lemma decode_loop_spec (todo : nat) :
  forall (done before rest : list Z),
    List.length before = (List.length done * 2)%nat ->
    (todo * 2 <= List.length rest)%nat ->
    Forall (fun r => 0 <= r < 2 ^ 32) rest ->
    decode_loop todo (List.length done) (before ++ rest)
                (done ++ slice.make todo)
    = done ++ firstn todo (decode_pairs rest).
Proof.
  induction todo as [|todo IH]; intros done before rest Hb Hlen Hr.
  - reflexivity.
  - destruct rest as [|hi [|lo rest]]; [simpl in Hlen; lia|simpl in Hlen; lia|].
    inversion Hr as [|? ? Hhi Hr']; subst.
    inversion Hr' as [|? ? Hlo Hr'']; subst.
    cbn [decode_loop].
    rewrite <- Hb, sub_pair.
    pose proof (stored_byte_spec hi lo Hhi Hlo) as Hs.
    unfold stored_byte in Hs.
    destruct (strconv.ParseUint (utf8.string_of_runes [hi; lo]) 16 16)
      as [bp err].
    cbn [slice.make repeat].
    assert (Hparts :
      match err with
      | Some _ => done ++ 0 :: repeat 0 todo
      | None => slice.update (done ++ 0 :: repeat 0 todo)
                             (List.length done) (to_byte bp)
      end = (done ++ [pair_byte hi lo]) ++ slice.make todo).
    { rewrite <- app_assoc. cbn [app]. destruct err.
      - now rewrite <- Hs.
      - now rewrite update_at_end, Hs. }
    rewrite Hparts.
    replace (S (List.length done)) with (List.length (done ++ [pair_byte hi lo]))
      by (rewrite length_app; simpl; lia).
    replace (before ++ hi :: lo :: rest) with ((before ++ [hi; lo]) ++ rest)
      by (rewrite <- app_assoc; reflexivity).
    rewrite IH.
    + rewrite <- app_assoc. reflexivity.
    + rewrite !length_app. simpl. lia.
    + simpl in Hlen. lia.
    + exact Hr''.
Qed.

Lemma effective_runes (runes : list Z) :
  (if (List.length runes mod 2 =? 1)%nat then skipn 1 runes else runes)
  = effective runes.
Proof.
  unfold effective.
  rewrite <- Nat.bit0_mod, Nat.bit0_odd.
  destruct (Nat.odd (List.length runes)); simpl.
  - now destruct runes.
  - reflexivity.
Qed.

Lemma effective_range (runes : list Z) :
  Forall (fun r => 0 <= r < 2 ^ 32) runes ->
  Forall (fun r => 0 <= r < 2 ^ 32) (effective runes).
Proof.
  intros H. unfold effective.
  destruct (Nat.odd _); [|exact H].
  destruct runes; [constructor|now inversion H].
Qed.

Lemma runes_of_string_uint32 (s : string) :
  Forall (fun r => 0 <= r < 2 ^ 32) (utf8.runes_of_string s).
Proof.
  eapply Forall_impl; [|apply runes_of_string_range].
  cbv beta. intros r Hr. lia.
Qed.

(** The codec computes the bytes of the pairs of the effective input. *)
Lemma thumbprintStringToHex_pairs (s : string) :
  thumbprintStringToHex s
  = (decode_pairs (effective (utf8.runes_of_string s)), None).
Proof.
  unfold thumbprintStringToHex. cbv zeta.
  rewrite effective_runes.
  set (runes := effective (utf8.runes_of_string s)).
  f_equal.
  pose proof (decode_loop_spec (List.length runes / 2) [] [] runes) as H.
  cbn [app List.length] in H. rewrite H.
  - rewrite <- decode_pairs_length. apply firstn_all.
  - reflexivity.
  - pose proof (Nat.div_mod_eq (List.length runes) 2). lia.
  - apply effective_range, runes_of_string_uint32.
Qed.

Lemma decode_pairs_nth (runes : list Z) (i : nat) :
  (i < List.length (decode_pairs runes))%nat ->
  nth i (decode_pairs runes) 0
  = pair_byte (nth (2 * i) runes 0) (nth (2 * i + 1) runes 0).
Proof.
  revert runes. induction i as [|i IH]; intros runes Hi.
  - destruct runes as [|a [|b l]]; simpl in Hi; try lia. reflexivity.
  - destruct runes as [|a [|b l]]; simpl in Hi; try lia.
    cbn [decode_pairs nth].
    rewrite IH by lia.
    replace (2 * S i)%nat with (S (S (2 * i))) by lia.
    replace (S (S (2 * i)) + 1)%nat with (S (S (2 * i + 1))) by lia.
    reflexivity.
Qed.

Lemma decode_pairs_range (runes : list Z) :
  Forall (fun b => 0 <= b < 256) (decode_pairs runes).
Proof.
  assert (H : forall n (l : list Z), (List.length l <= n)%nat ->
              Forall (fun b => 0 <= b < 256) (decode_pairs l)).
  { induction n as [|n IH]; intros l Hl.
    - destruct l; [constructor|simpl in Hl; lia].
    - destruct l as [|a [|b l]]; try constructor.
      + apply pair_byte_range.
      + apply IH. simpl in Hl. lia. }
  now apply (H (List.length runes)).
Qed.

(** The indices the loop uses stay inside the rune slice and inside
    [parts]. *)
Lemma codec_indices_in_range (runes : list Z) (count : nat) :
  (count < List.length runes / 2)%nat ->
  (count * 2 + 2 <= List.length runes)%nat /\
  (count < List.length (slice.make (List.length runes / 2)))%nat.
Proof.
  intros Hc. unfold slice.make. rewrite repeat_length.
  pose proof (Nat.div_mod_eq (List.length runes) 2). lia.
Qed.

(** C4.  For every input string the codec returns a byte sequence and no
    error.  With the input's characters counted as the code does (runes),
    an odd count drops the first character unexamined; the result has
    floor(effective length / 2) bytes; and byte [i] is the unsigned 8-bit
    hexadecimal value of the pair of characters [2i], [2i+1], or zero when
    that pair does not parse. *)
Theorem thumbprint_codec_total (s : string) :
  let runes := utf8.runes_of_string s in
  let eff := if Nat.odd (List.length runes) then tl runes else runes in
  let parts := fst (thumbprintStringToHex s) in
  snd (thumbprintStringToHex s) = None /\
  List.length parts = (List.length eff / 2)%nat /\
  (forall i, (i < List.length parts)%nat ->
     nth i parts 0 =
       match hex_pair_u8 (nth (2 * i) eff 0) (nth (2 * i + 1) eff 0) with
       | Some v => v
       | None => 0
       end) /\
  Forall (fun b => 0 <= b < 256) parts.
Proof.
  cbv zeta. rewrite thumbprintStringToHex_pairs. cbn [fst snd].
  fold (effective (utf8.runes_of_string s)).
  repeat split.
  - apply decode_pairs_length.
  - intros i Hi. now rewrite decode_pairs_nth.
  - apply decode_pairs_range.
Qed.

(** The codec on a thumbprint as it is typed, on one that carries a UTF-8
    byte order mark, and on one with a pair that is no hexadecimal
    number. *)
Example codec_plain :
  thumbprintStringToHex "AB12cd" = ([0xAB; 0x12; 0xCD], None).
Proof. reflexivity. Qed.

Example codec_byte_order_mark :
  thumbprintStringToHex (String "239" (String "187" (String "191" "AB12")))
  = ([0xAB; 0x12], None).
Proof. reflexivity. Qed.

Example codec_bad_pair :
  thumbprintStringToHex "ABzz12" = ([0xAB; 0; 0x12], None).
Proof. reflexivity. Qed.

End CodecFacts.

(** ** Round trip and letter case *)

Section RoundTrip.
Import GoString CodecSpec.

Lemma hex_digit_value_some (b d : Z) :
  hex_digit_value b = Some d ->
  0 <= d < 16 /\ 0 <= b < 128 /\
  hex_digit false d = lower_byte b /\
  hex_digit true d = upper_byte b.
Proof.
  unfold hex_digit_value, hex_digit, lower_byte, upper_byte.
  repeat match goal with
  | |- context [if ?c then _ else _] => destruct c eqn:?
  end; intros E; inversion E; subst; lia.
Qed.

Lemma hex_digit_value_lower (b : Z) :
  hex_digit_value (lower_byte b) = hex_digit_value b.
Proof.
  unfold hex_digit_value, lower_byte.
  destruct ((65 <=? b) && (b <=? 90)) eqn:?.
  all: repeat match goal with
  | |- context [if ?c then _ else _] => destruct c eqn:?
  end; try reflexivity; try (f_equal; lia); exfalso; lia.
Qed.

Lemma hex_digit_range (u : bool) (d : Z) :
  0 <= d < 16 -> 0 <= hex_digit u d < 128.
Proof.
  unfold hex_digit. intros Hd.
  destruct (d <? 10); [lia|]. destruct u; lia.
Qed.

Lemma hex_digit_value_hex_digit (u : bool) (d : Z) :
  0 <= d < 16 -> hex_digit_value (hex_digit u d) = Some d.
Proof.
  intros Hd. unfold hex_digit_value, hex_digit.
  destruct (d <? 10) eqn:E10; [|destruct u];
  repeat match goal with
  | |- context [if ?c then _ else _] => destruct c eqn:?
  end; try (f_equal; lia); exfalso; lia.
Qed.

Lemma all_hex_ascii (s : string) :
  all_hex s = true -> Forall (fun b => b < 128) (bytes_of_string s).
Proof.
  induction s as [|c t IH]; cbn [all_hex bytes_of_string]; intros H.
  - constructor.
  - apply andb_true_iff in H. destruct H as [Hc Ht].
    constructor; [|now apply IH].
    unfold is_hex_char in Hc.
    destruct (hex_digit_value (byte_val c)) as [d|] eqn:E; [|discriminate].
    apply hex_digit_value_some in E. lia.
Qed.

(** On well-formed text the codec is [decode_pairs] on the bytes of the
    text. *)
Lemma thumbprintStringToHex_valid (s : string) :
  valid_hex s ->
  thumbprintStringToHex s = (decode_pairs (bytes_of_string s), None).
Proof.
  intros [Hhex Heven].
  rewrite thumbprintStringToHex_pairs.
  rewrite runes_of_string_ascii by now apply all_hex_ascii.
  unfold effective.
  rewrite bytes_of_string_length, <- Nat.negb_even, Heven. reflexivity.
Qed.

Lemma pair_nibbles (h l : Z) :
  0 <= h < 16 -> 0 <= l < 16 ->
  (16 * h + l) / 16 = h /\ (16 * h + l) mod 16 = l.
Proof.
  intros Hh Hl. split.
  - rewrite Z.mul_comm, Z.div_add_l by lia.
    rewrite Z.div_small by lia. lia.
  - rewrite Z.mul_comm, Z.add_comm, Z.mod_add by lia.
    apply Z.mod_small. lia.
Qed.

(** Two at a time over a string of even length. *)
Lemma even_string_ind (P : string -> Prop) :
  P EmptyString ->
  (forall c1 c2 t, Nat.even (String.length t) = true ->
                   P t -> P (String c1 (String c2 t))) ->
  forall s, Nat.even (String.length s) = true -> P s.
Proof.
  intros H0 H2.
  assert (H : forall n s, (String.length s <= n)%nat ->
              Nat.even (String.length s) = true -> P s).
  { induction n as [|n IH]; intros s Hn He.
    - destruct s; [exact H0|simpl in Hn; lia].
    - destruct s as [|c1 [|c2 t]]; [exact H0|discriminate|].
      apply H2; [exact He|].
      apply IH; [simpl in Hn; lia|exact He]. }
  intros s. now apply (H (String.length s)).
Qed.

Lemma hex_encode_decode_pairs (s : string) :
  valid_hex s ->
  hex_encode false (decode_pairs (bytes_of_string s)) = to_lower s /\
  hex_encode true (decode_pairs (bytes_of_string s)) = to_upper s.
Proof.
  intros [Hhex Heven]. revert Hhex.
  pattern s. apply even_string_ind; [now split| |exact Heven].
  clear s Heven. intros c1 c2 t Heven IH Hhex.
  cbn [all_hex] in Hhex.
  apply andb_true_iff in Hhex. destruct Hhex as [H1 Hhex].
  apply andb_true_iff in Hhex. destruct Hhex as [H2 Hhex].
  destruct (IH Hhex) as [IHl IHu].
  unfold is_hex_char in H1, H2.
  destruct (hex_digit_value (byte_val c1)) as [h|] eqn:E1; [|discriminate].
  destruct (hex_digit_value (byte_val c2)) as [l|] eqn:E2; [|discriminate].
  cbn [bytes_of_string decode_pairs hex_encode to_lower to_upper].
  unfold pair_byte, hex_pair_u8. rewrite E1, E2.
  apply hex_digit_value_some in E1. apply hex_digit_value_some in E2.
  destruct E1 as (Hh & _ & Eh1 & Eh2). destruct E2 as (Hl & _ & El1 & El2).
  destruct (pair_nibbles h l Hh Hl) as [-> ->].
  rewrite Eh1, Eh2, El1, El2, IHl, IHu. now split.
Qed.

Lemma decode_pairs_hex_encode (u : bool) (bs : list Z) :
  Forall (fun b => 0 <= b < 256) bs ->
  decode_pairs (bytes_of_string (hex_encode u bs)) = bs.
Proof.
  induction 1 as [|b bs Hb _ IH]; [reflexivity|].
  cbn [hex_encode bytes_of_string decode_pairs].
  assert (Hq : 0 <= b / 16 < 16)
    by (split; [apply Z.div_pos; lia|apply Z.div_lt_upper_bound; lia]).
  assert (Hr : 0 <= b mod 16 < 16) by (apply Z.mod_pos_bound; lia).
  pose proof (hex_digit_range u _ Hq). pose proof (hex_digit_range u _ Hr).
  rewrite !byte_val_ascii_of_byte by lia.
  unfold pair_byte, hex_pair_u8.
  rewrite !hex_digit_value_hex_digit by assumption.
  rewrite IH. f_equal.
  pose proof (Z.div_mod b 16 ltac:(lia)). lia.
Qed.

Lemma hex_encode_valid (u : bool) (bs : list Z) :
  Forall (fun b => 0 <= b < 256) bs -> valid_hex (hex_encode u bs).
Proof.
  intros H. split.
  - induction H as [|b bs Hb _ IH]; [reflexivity|].
    cbn [hex_encode all_hex]. rewrite IH, andb_true_r.
    assert (Hq : 0 <= b / 16 < 16)
      by (split; [apply Z.div_pos; lia|apply Z.div_lt_upper_bound; lia]).
    assert (Hr : 0 <= b mod 16 < 16) by (apply Z.mod_pos_bound; lia).
    pose proof (hex_digit_range u _ Hq). pose proof (hex_digit_range u _ Hr).
    unfold is_hex_char. rewrite !byte_val_ascii_of_byte by lia.
    now rewrite !hex_digit_value_hex_digit.
  - induction bs as [|b bs IH]; [reflexivity|].
    inversion H; subst. cbn [hex_encode String.length]. now apply IH.
Qed.

Lemma to_lower_length (s : string) :
  String.length (to_lower s) = String.length s.
Proof. induction s; simpl; congruence. Qed.

Lemma decode_pairs_to_lower (s : string) :
  decode_pairs (bytes_of_string (to_lower s)) = decode_pairs (bytes_of_string s).
Proof.
  assert (H : forall n s, (String.length s <= n)%nat ->
              decode_pairs (bytes_of_string (to_lower s))
              = decode_pairs (bytes_of_string s)).
  { induction n as [|n IH]; intros t Hn.
    - destruct t; [reflexivity|simpl in Hn; lia].
    - destruct t as [|c1 [|c2 t]]; [reflexivity|reflexivity|].
      cbn [to_lower bytes_of_string decode_pairs].
      rewrite IH by (simpl in Hn; lia). f_equal.
      assert (Hb : forall c, byte_val (ascii_of_byte (lower_byte (byte_val c)))
                             = lower_byte (byte_val c)).
      { intros c. apply byte_val_ascii_of_byte.
        pose proof (byte_val_range c). unfold lower_byte.
        destruct (_ && _) eqn:E; lia. }
      rewrite !Hb. unfold pair_byte, hex_pair_u8.
      now rewrite !hex_digit_value_lower. }
  now apply (H (String.length s)).
Qed.

(** C7.  For every even-length string of hexadecimal digits: re-encoding
    the decoded bytes as hexadecimal text gives the original text, in the
    letter case of the encoder; that text decodes to the same bytes again;
    the upper-case and the lower-case spelling of the string decode to the
    bytes of the string; and so does any well-formed spelling that differs
    from it only in letter case. *)
Theorem thumbprint_codec_round_trip (s : string) :
  valid_hex s ->
  let bytes := fst (thumbprintStringToHex s) in
  hex_encode false bytes = to_lower s /\
  hex_encode true bytes = to_upper s /\
  fst (thumbprintStringToHex (hex_encode false bytes)) = bytes /\
  fst (thumbprintStringToHex (hex_encode true bytes)) = bytes /\
  fst (thumbprintStringToHex (to_lower s)) = bytes /\
  fst (thumbprintStringToHex (to_upper s)) = bytes /\
  (forall t, valid_hex t -> to_lower t = to_lower s ->
             fst (thumbprintStringToHex t) = bytes).
Proof.
  intros Hs. cbv zeta.
  rewrite (thumbprintStringToHex_valid s Hs). cbn [fst].
  pose proof (decode_pairs_range (bytes_of_string s)) as Hrange.
  destruct (hex_encode_decode_pairs s Hs) as [Hl Hu].
  assert (Hback : forall u,
    fst (thumbprintStringToHex
           (hex_encode u (decode_pairs (bytes_of_string s))))
    = decode_pairs (bytes_of_string s)).
  { intros u.
    rewrite thumbprintStringToHex_valid by now apply hex_encode_valid.
    cbn [fst]. now apply decode_pairs_hex_encode. }
  split; [exact Hl|]. split; [exact Hu|].
  split; [apply Hback|]. split; [apply Hback|].
  split; [rewrite <- Hl; apply Hback|]. split; [rewrite <- Hu; apply Hback|].
  intros t Ht E.
  rewrite (thumbprintStringToHex_valid t Ht). cbn [fst].
  rewrite <- (decode_pairs_to_lower t), E. apply decode_pairs_to_lower.
Qed.

End RoundTrip.

(** ** Runs *)

Section MonadLaws.
Context {A B C : Type}.

Lemma bind_ret (a : A) (f : A -> M B) : bind (ret a) f = f a.
Proof. unfold bind, ret. now destruct (f a). Qed.

Lemma bind_ret_r (m : M A) : bind m ret = m.
Proof.
  destruct m as [[a|p|] t]; cbn; [|reflexivity|reflexivity].
  now rewrite app_nil_r.
Qed.

Lemma bind_assoc (m : M A) (f : A -> M B) (g : B -> M C) :
  bind (bind m f) g = bind m (fun a => bind (f a) g).
Proof.
  destruct m as [[a|p|] t]; cbn; [|reflexivity|reflexivity].
  destruct (f a) as [[b|p|] t1]; cbn; [|reflexivity|reflexivity].
  destruct (g b) as [o t2]. now rewrite app_assoc.
Qed.

Lemma bind_call (e : Event) (reply : A) (f : A -> M B) :
  bind (call e reply) f = (fst (f reply), e :: snd (f reply)).
Proof. unfold bind, call. now destruct (f reply). Qed.

(** A deferred call is the last event of every run that ends. *)
Lemma defer_trace (e : Event) (body : M A) :
  outcome (defer e body) <> OutOfFuel ->
  defer e body = (outcome body, trace body ++ [e]).
Proof.
  destruct body as [[a|p|] t]; cbn; intros H; congruence.
Qed.

End MonadLaws.

(** ** The two-phase queries *)

Section QueryFacts.
Context {V : Type} (w : Native V).

(** The property query always returns; it returns a thumbprint only when
    both calls succeeded and the announced size is not zero. *)
Lemma getCertificateThumbprint_cases (cert : option CertContext) :
  let probe := hash_probe w cert in
  let fill := hash_fill w cert in
  let cb := uint32 (count probe) in
  getCertificateThumbprint w cert =
    if raw probe =? 0 then
      (Returned (None, Some (HashingFailed (lastError probe))),
       [CallCertGetCertificateContextProperty cert certHashPropID None 0])
    else if cb =? 0 then
      (Returned (None, None),
       [CallCertGetCertificateContextProperty cert certHashPropID None 0])
    else
      (Returned
         (if raw fill =? 0
          then (None, Some (HashingFailed (lastError fill)))
          else (Some (overwrite (slice.make (Z.to_nat cb)) (written fill)),
                None)),
       [CallCertGetCertificateContextProperty cert certHashPropID None 0;
        CallCertGetCertificateContextProperty cert certHashPropID
          (Some (slice.make (Z.to_nat cb))) cb]).
Proof.
  cbv zeta. unfold getCertificateThumbprint. rewrite bind_call.
  fold (hash_probe w cert).
  destruct (raw (hash_probe w cert) =? 0); [reflexivity|].
  destruct (uint32 (count (hash_probe w cert)) =? 0) eqn:Ecb; [reflexivity|].
  rewrite bind_call. fold (hash_probe w cert).
  change (CertGetCertificateContextProperty w cert certHashPropID
            (Some (slice.make (Z.to_nat (uint32 (count (hash_probe w cert))))))
            (uint32 (count (hash_probe w cert))))
    with (hash_fill w cert).
  cbn [fst snd].
  destruct (raw (hash_fill w cert) =? 0); reflexivity.
Qed.

Lemma getCertificateThumbprint_returns (cert : option CertContext) :
  exists res, outcome (getCertificateThumbprint w cert) = Returned res.
Proof.
  pose proof (getCertificateThumbprint_cases cert) as H. cbv zeta in H.
  rewrite H.
  repeat match goal with
  | |- context [if ?b then _ else _] => destruct b
  end; cbn; eauto.
Qed.

Lemma getCertificateThumbprint_trace (cert : option CertContext) :
  closes (trace (getCertificateThumbprint w cert)) = 0%nat /\
  decryption_certificates (trace (getCertificateThumbprint w cert)) = [].
Proof.
  pose proof (getCertificateThumbprint_cases cert) as H. cbv zeta in H.
  rewrite H.
  repeat match goal with
  | |- context [if ?b then _ else _] => destruct b
  end; cbn; auto.
Qed.

(** The decryption, case by case, once the ciphertext is not empty. *)
Lemma decryptDataWithCert_cases (decoded : slice.t Z)
  (cert : option CertContext) (storeHandle : Z) :
  slice.elems decoded <> [] ->
  let para := decrypt_parameters decoded storeHandle in
  let blob := slice.elems decoded in
  let n := Z.of_nat (slice.len decoded) in
  let probe := decrypt_probe w decoded storeHandle in
  let fill := decrypt_fill w decoded storeHandle in
  let cb := uint32 (count probe) in
  let buf := overwrite (slice.make (Z.to_nat cb)) (written fill) in
  decryptDataWithCert w decoded cert storeHandle =
    if raw probe =? 0 then
      (Returned (None, Some (if lastError probe =? crypteEAsn1BadTag
                             then ErrInvalidProtectedSettingsData
                             else DecryptionFailed (lastError probe))),
       [CallCryptDecryptMessage para blob n None 0])
    else if cb =? 0 then
      (Returned (None, None), [CallCryptDecryptMessage para blob n None 0])
    else
      (if raw fill =? 0
       then Returned (None, Some (DecryptionFailed (lastError fill)))
       else if Z.of_nat (List.length buf) <? uint32 (count fill)
            then Panicked SliceBoundsOutOfRange
            else Returned (Some (firstn (Z.to_nat (uint32 (count fill))) buf),
                           None),
       [CallCryptDecryptMessage para blob n None 0;
        CallCryptDecryptMessage para blob n
          (Some (slice.make (Z.to_nat cb))) cb]).
Proof.
  intros Hne. cbv zeta. unfold decryptDataWithCert.
  destruct (slice.elems decoded) as [|b0 rest] eqn:Eblob; [congruence|].
  rewrite bind_call.
  assert (Eprobe :
    CryptDecryptMessage w (decrypt_parameters decoded storeHandle)
      (b0 :: rest) (Z.of_nat (slice.len decoded)) None 0
    = decrypt_probe w decoded storeHandle)
    by (unfold decrypt_probe; now rewrite Eblob).
  rewrite Eprobe.
  destruct (raw (decrypt_probe w decoded storeHandle) =? 0).
  { destruct (lastError (decrypt_probe w decoded storeHandle)
              =? crypteEAsn1BadTag); reflexivity. }
  destruct (uint32 (count (decrypt_probe w decoded storeHandle)) =? 0);
    [reflexivity|].
  rewrite bind_call.
  assert (Efill :
    CryptDecryptMessage w (decrypt_parameters decoded storeHandle)
      (b0 :: rest) (Z.of_nat (slice.len decoded))
      (Some (slice.make
               (Z.to_nat (uint32 (count (decrypt_probe w decoded storeHandle))))))
      (uint32 (count (decrypt_probe w decoded storeHandle)))
    = decrypt_fill w decoded storeHandle)
    by (unfold decrypt_fill; now rewrite Eblob).
  rewrite Efill. cbn [fst snd].
  destruct (raw (decrypt_fill w decoded storeHandle) =? 0); [reflexivity|].
  destruct (_ <? _); reflexivity.
Qed.

Lemma decryptDataWithCert_empty (decoded : slice.t Z)
  (cert : option CertContext) (storeHandle : Z) :
  slice.elems decoded = [] ->
  decryptDataWithCert w decoded cert storeHandle
  = (Panicked IndexOutOfRange, []).
Proof.
  intros E. unfold decryptDataWithCert. now rewrite E.
Qed.

Lemma decryptDataWithCert_trace (decoded : slice.t Z)
  (cert : option CertContext) (storeHandle : Z) :
  closes (trace (decryptDataWithCert w decoded cert storeHandle)) = 0%nat /\
  decryption_certificates
    (trace (decryptDataWithCert w decoded cert storeHandle)) = [] /\
  outcome (decryptDataWithCert w decoded cert storeHandle) <> OutOfFuel.
Proof.
  destruct (slice.elems decoded) as [|b0 rest] eqn:E.
  - rewrite decryptDataWithCert_empty by exact E. cbn. repeat split; auto.
    discriminate.
  - pose proof (decryptDataWithCert_cases decoded cert storeHandle) as H.
    cbv zeta in H. rewrite H by congruence.
    repeat match goal with
    | |- context [if ?b then _ else _] => destruct b
    end; cbn; repeat split; auto; discriminate.
Qed.

(** The only errors the decryption returns. *)
Lemma decryptDataWithCert_errors (decoded : slice.t Z)
  (cert : option CertContext) (storeHandle : Z) (bytes : slice.t Z) (e : error) :
  outcome (decryptDataWithCert w decoded cert storeHandle)
    = Returned (bytes, Some e) ->
  e = ErrInvalidProtectedSettingsData \/ exists errno, e = DecryptionFailed errno.
Proof.
  destruct (slice.elems decoded) as [|b0 rest] eqn:E.
  - rewrite decryptDataWithCert_empty by exact E. cbn. discriminate.
  - pose proof (decryptDataWithCert_cases decoded cert storeHandle) as H.
    cbv zeta in H. rewrite H by congruence.
    repeat match goal with
    | |- context [if ?b then _ else _] => destruct b
    end; cbn; intros Hr; inversion Hr; eauto.
Qed.

End QueryFacts.

(** ** The enumeration loop *)

Section LoopFacts.
Context {V : Type} (w : Native V).

(** One round of the loop. *)
Lemma enumerate_round (fuel : nat) (handle : Z) (target : list Z)
  (prev : option CertContext) :
  enumerate w (S fuel) handle target prev =
    let ev := CallCertEnumCertificatesInStore handle prev in
    let '(cert, err) := CertEnumCertificatesInStore w handle prev in
    match err with
    | Some e =>
      (Returned (if is_crypteENotFound e then LoopBreak false cert
                 else LoopReturn (EnumerationFailed e)), [ev])
    | None =>
      match cert with
      | None => (Returned (LoopBreak false None), [ev])
      | Some c =>
        let q := getCertificateThumbprint w (Some c) in
        match outcome q with
        | Returned (Some candidate, None) =>
          if bytes_Compare target candidate =? 0
          then (Returned (LoopBreak true (Some c)), ev :: trace q)
          else (outcome (enumerate w fuel handle target (Some c)),
                ev :: trace q ++ trace (enumerate w fuel handle target (Some c)))
        | Returned _ =>
          (outcome (enumerate w fuel handle target (Some c)),
           ev :: trace q ++ trace (enumerate w fuel handle target (Some c)))
        | Panicked p => (Panicked p, ev :: trace q)
        | OutOfFuel => (OutOfFuel, ev :: trace q)
        end
      end
    end.
Proof.
  cbn [enumerate]. rewrite bind_call. cbv zeta.
  destruct (CertEnumCertificatesInStore w handle prev) as [cert [e|]].
  - destruct (is_crypteENotFound e); reflexivity.
  - destruct cert as [c|]; [|reflexivity].
    unfold outcome, trace.
    destruct (getCertificateThumbprint w (Some c)) as [[[found err]|p|] tq];
      cbn [bind fst snd]; try reflexivity.
    destruct err as [e|], found as [candidate|];
      try (destruct (enumerate w fuel handle target (Some c)); reflexivity).
    destruct (bytes_Compare target candidate =? 0).
    + cbn. now rewrite app_nil_r.
    + destruct (enumerate w fuel handle target (Some c)); reflexivity.
Qed.

Lemma closes_app (t1 t2 : list Event) :
  closes (t1 ++ t2) = (closes t1 + closes t2)%nat.
Proof. unfold closes. now rewrite filter_app, length_app. Qed.

Lemma decryption_certificates_app (t1 t2 : list Event) :
  decryption_certificates (t1 ++ t2)
  = decryption_certificates t1 ++ decryption_certificates t2.
Proof.
  induction t1 as [|e t1 IH]; [reflexivity|].
  destruct e; cbn [app decryption_certificates]; now rewrite ?IH.
Qed.

(** The loop closes no store, enters no decryption and does not panic. *)
Lemma enumerate_quiet (fuel : nat) (handle : Z) (target : list Z) :
  forall prev,
    closes (trace (enumerate w fuel handle target prev)) = 0%nat /\
    decryption_certificates (trace (enumerate w fuel handle target prev)) = [] /\
    (forall p, outcome (enumerate w fuel handle target prev) <> Panicked p).
Proof.
  induction fuel as [|fuel IH]; intros prev.
  - cbn. repeat split; auto. discriminate.
  - rewrite enumerate_round. cbv zeta.
    destruct (CertEnumCertificatesInStore w handle prev) as [cert [e|]].
    { cbn. repeat split; auto. discriminate. }
    destruct cert as [c|]; [|cbn; repeat split; auto; discriminate].
    destruct (getCertificateThumbprint_returns w (Some c)) as [res Hres].
    destruct (getCertificateThumbprint_trace w (Some c)) as [Hc Hd].
    destruct (IH (Some c)) as (IHc & IHd & IHp).
    rewrite Hres.
    assert (Hgo :
      closes (CallCertEnumCertificatesInStore handle prev
              :: trace (getCertificateThumbprint w (Some c))
                 ++ trace (enumerate w fuel handle target (Some c))) = 0%nat /\
      decryption_certificates
        (CallCertEnumCertificatesInStore handle prev
         :: trace (getCertificateThumbprint w (Some c))
            ++ trace (enumerate w fuel handle target (Some c))) = []).
    { change (closes (?e :: ?t)) with (closes t).
      cbn [decryption_certificates].
      rewrite closes_app, decryption_certificates_app, Hc, Hd, IHc, IHd.
      now split. }
    destruct Hgo as [Hgc Hgd].
    destruct res as [[candidate|] [e|]];
      try (cbn [outcome trace fst snd]; repeat split; assumption).
    destruct (bytes_Compare target candidate =? 0);
      [|cbn [outcome trace fst snd]; repeat split; assumption].
    cbn [outcome trace fst snd].
    change (closes (?e :: ?t)) with (closes t).
    cbn [decryption_certificates].
    repeat split; try assumption. discriminate.
Qed.

(** An enumeration error that leaves the loop by [return] is never the
    end-of-store condition. *)
Lemma enumerate_return (fuel : nat) (handle : Z) (target : list Z) :
  forall prev err,
    outcome (enumerate w fuel handle target prev) = Returned (LoopReturn err) ->
    exists e, err = EnumerationFailed e /\ is_crypteENotFound e = false.
Proof.
  induction fuel as [|fuel IH]; intros prev err.
  - cbn. discriminate.
  - rewrite enumerate_round. cbv zeta.
    destruct (CertEnumCertificatesInStore w handle prev) as [cert [e|]].
    { destruct (is_crypteENotFound e) eqn:Ee; cbn; intros H; inversion H.
      eauto. }
    destruct cert as [c|]; [|cbn; discriminate].
    destruct (outcome (getCertificateThumbprint w (Some c)))
      as [[[candidate|] [e|]]|p|]; cbn [outcome fst];
      try apply IH; try discriminate.
    destruct (bytes_Compare target candidate =? 0); cbn [outcome fst];
      [discriminate|apply IH].
Qed.

(** When the loop stops with [found] set, the entry it stopped at has
    just been hashed to the target, byte for byte. *)
Lemma enumerate_found (fuel : nat) (handle : Z) (target : list Z) :
  forall prev entry,
    outcome (enumerate w fuel handle target prev)
      = Returned (LoopBreak true entry) ->
    exists c candidate,
      entry = Some c /\
      outcome (getCertificateThumbprint w (Some c))
        = Returned (Some candidate, None) /\
      bytes_Compare target candidate = 0.
Proof.
  induction fuel as [|fuel IH]; intros prev entry.
  - cbn. discriminate.
  - rewrite enumerate_round. cbv zeta.
    destruct (CertEnumCertificatesInStore w handle prev) as [cert [e|]].
    { destruct (is_crypteENotFound e); cbn; discriminate. }
    destruct cert as [c|]; [|cbn; discriminate].
    destruct (outcome (getCertificateThumbprint w (Some c)))
      as [[[candidate|] [e|]]|p|] eqn:Eq; cbn [outcome fst];
      try apply IH; try discriminate.
    destruct (bytes_Compare target candidate =? 0) eqn:Ecmp; cbn [outcome fst];
      [|apply IH].
    intros H. inversion H; subst.
    exists c, candidate. split; [reflexivity|]. split; [exact Eq|].
    now apply Z.eqb_eq.
Qed.

Lemma bytes_Compare_eq (a b : list Z) : bytes_Compare a b = 0 <-> a = b.
Proof.
  revert b. induction a as [|x a IH]; intros [|y b]; cbn [bytes_Compare];
    try (split; [discriminate|discriminate]); [tauto|].
  destruct (x <? y) eqn:E1; [split; [discriminate|intros H; inversion H; lia]|].
  destruct (y <? x) eqn:E2; [split; [discriminate|intros H; inversion H; lia]|].
  rewrite IH. assert (x = y) by lia. subst.
  split; [intros ->; reflexivity|intros H; now inversion H].
Qed.

End LoopFacts.

(** ** The pipeline *)

Section PipelineFacts.
Context {V : Type} (w : Native V).

(** The pipeline once the store is open: the loop, then what follows the
    loop, under the deferred close. *)
Lemma DecryptProtectedSettings_opened (fuel : nat)
  (configFolder thumbprint : string) (decoded : slice.t Z) (h : Z) :
  open_reply w = (h, None) -> h <> 0 ->
  let target := fst (thumbprintStringToHex thumbprint) in
  let loop := enumerate w fuel h target None in
  let dec := decryptDataWithCert w decoded None h in
  let close := CallCertCloseStore h 0 in
  DecryptProtectedSettings w fuel configFolder thumbprint decoded =
    match outcome loop with
    | OutOfFuel => (OutOfFuel, open_event :: trace loop)
    | Panicked p => (Panicked p, open_event :: trace loop ++ [close])
    | Returned (LoopReturn e) =>
      (Returned (None, Some e), open_event :: trace loop ++ [close])
    | Returned (LoopBreak false _) =>
      (Returned (None, Some ErrCertWithThumbprintNotFound),
       open_event :: trace loop ++ [close])
    | Returned (LoopBreak true _) =>
      (match outcome dec with
       | Returned (_, Some e) => Returned (None, Some e)
       | Returned (decryptedBytes, None) =>
         Returned (fst (json_Unmarshal w decryptedBytes),
                   option_map Foreign (snd (json_Unmarshal w decryptedBytes)))
       | Panicked p => Panicked p
       | OutOfFuel => OutOfFuel
       end,
       open_event :: trace loop ++ EnterDecryptDataWithCert None h
                  :: trace dec ++ [close])
    end.
Proof.
  intros Hopen Hh. cbv zeta.
  pose proof (decryptDataWithCert_trace w decoded None h) as (_ & _ & Hfuel).
  unfold DecryptProtectedSettings. rewrite bind_call.
  fold (open_reply w). rewrite Hopen. cbn [fst snd].
  replace (h =? 0) with false by (symmetry; now apply Z.eqb_neq).
  rewrite thumbprintStringToHex_pairs. cbn [fst].
  unfold outcome, trace in *.
  destruct (enumerate w fuel h _ None) as [[[[] entry|e]|p|] t];
    cbn [bind defer fst snd ret app]; rewrite ?app_nil_r; try reflexivity.
  rewrite bind_call. cbn [fst snd].
  destruct (decryptDataWithCert w decoded None h)
    as [[[decryptedBytes [e|]]|p|] td]; cbn [bind defer fst snd ret app].
  - rewrite app_nil_r. cbn [app]. now rewrite <- app_assoc.
  - destruct (json_Unmarshal w decryptedBytes) as [v err].
    cbn [fst snd defer ret]. rewrite app_nil_r. cbn [app].
    now rewrite <- app_assoc.
  - cbn [app]. now rewrite <- app_assoc.
  - now contradiction Hfuel.
Qed.

(** The pipeline when the store does not open. *)
Lemma DecryptProtectedSettings_not_opened (fuel : nat)
  (configFolder thumbprint : string) (decoded : slice.t Z) :
  (forall h e, open_reply w = (h, Some e) ->
     DecryptProtectedSettings w fuel configFolder thumbprint decoded
     = (Returned (None, Some (StoreAccessDenied e)), [open_event])) /\
  (open_reply w = (0, None) ->
     DecryptProtectedSettings w fuel configFolder thumbprint decoded
     = (Returned (None, Some ErrMustRunAsAdmin), [open_event])).
Proof.
  split.
  - intros h e Hopen. unfold DecryptProtectedSettings. rewrite bind_call.
    fold (open_reply w). now rewrite Hopen.
  - intros Hopen. unfold DecryptProtectedSettings. rewrite bind_call.
    fold (open_reply w). now rewrite Hopen.
Qed.

(** Every error the pipeline returns belongs to its taxonomy. *)
Lemma DecryptProtectedSettings_errors (fuel : nat)
  (configFolder thumbprint : string) (decoded : slice.t Z)
  (v : option V) (err : error) :
  outcome (DecryptProtectedSettings w fuel configFolder thumbprint decoded)
    = Returned (v, Some err) ->
  pipeline_error err.
Proof.
  destruct (DecryptProtectedSettings_not_opened fuel configFolder thumbprint
              decoded) as [Herr Hnull].
  destruct (open_reply w) as [h [e|]] eqn:Hopen.
  { rewrite (Herr h e eq_refl). cbn. intros H. inversion H. constructor. }
  destruct (Z.eq_dec h 0) as [->|Hh].
  { rewrite (Hnull eq_refl). cbn. intros H. inversion H. constructor. }
  rewrite (DecryptProtectedSettings_opened fuel _ _ _ h Hopen Hh). cbv zeta.
  set (target := fst (thumbprintStringToHex thumbprint)).
  pose proof (enumerate_return w fuel h target None) as Hret.
  destruct (outcome (enumerate w fuel h target None)) as [[[] entry|e]|p|];
    cbn [outcome fst]; try discriminate.
  - pose proof (decryptDataWithCert_errors w decoded None h) as Hdec.
    destruct (outcome (decryptDataWithCert w decoded None h))
      as [[bytes [e|]]|p|]; try discriminate.
    + destruct (Hdec bytes e eq_refl) as [->|[errno ->]];
        intros H; inversion H; constructor.
    + destruct (snd (json_Unmarshal w bytes)) as [e|]; cbn;
        intros H; inversion H. constructor.
  - intros H. inversion H. constructor.
  - destruct (Hret e eq_refl) as (e' & -> & He').
    intros H. inversion H. now constructor.
Qed.

(** The thumbprint codec returns no error, so the pipeline never reports
    an invalid thumbprint. *)
Lemma invalid_thumbprint_unreachable (fuel : nat)
  (configFolder thumbprint : string) (decoded : slice.t Z) (v : option V) :
  outcome (DecryptProtectedSettings w fuel configFolder thumbprint decoded)
  <> Returned (v, Some InvalidThumbprint).
Proof.
  intros H. apply DecryptProtectedSettings_errors in H.
  inversion H.
Qed.

(** C3.  When opening the store returns an error the pipeline fails with
    the store-access error built from it; when it returns no error and a
    null handle the pipeline fails with the must-run-as-admin error; the
    two errors are different values, and in both cases the pipeline made no
    other native call. *)
Theorem store_open_failures (fuel : nat) (configFolder thumbprint : string)
  (decoded : slice.t Z) :
  (forall h e, open_reply w = (h, Some e) ->
     DecryptProtectedSettings w fuel configFolder thumbprint decoded
     = (Returned (None, Some (StoreAccessDenied e)), [open_event])) /\
  (open_reply w = (0, None) ->
     DecryptProtectedSettings w fuel configFolder thumbprint decoded
     = (Returned (None, Some PermissionRequired), [open_event])) /\
  (forall e, StoreAccessDenied e <> PermissionRequired).
Proof.
  destruct (DecryptProtectedSettings_not_opened fuel configFolder thumbprint
              decoded) as [Herr Hnull].
  split; [exact Herr|]. split; [exact Hnull|]. discriminate.
Qed.

(** C8.  Once the store is open with a non-null handle, every run of the
    pipeline that ends, by a return or by a panic, has closed that handle
    exactly once, as its last native call. *)
Theorem store_closed_once (fuel : nat) (configFolder thumbprint : string)
  (decoded : slice.t Z) (h : Z) :
  open_reply w = (h, None) -> h <> 0 ->
  let run := DecryptProtectedSettings w fuel configFolder thumbprint decoded in
  outcome run <> OutOfFuel ->
  closes (trace run) = 1%nat /\
  exists before,
    trace run = before ++ [CallCertCloseStore h 0] /\ closes before = 0%nat.
Proof.
  intros Hopen Hh. cbv zeta.
  rewrite (DecryptProtectedSettings_opened fuel _ _ _ h Hopen Hh). cbv zeta.
  set (target := fst (thumbprintStringToHex thumbprint)).
  destruct (enumerate_quiet w fuel h target None) as (Hc & _ & _).
  destruct (decryptDataWithCert_trace w decoded None h) as (Hdc & _ & _).
  assert (Hlast : forall t, closes t = 0%nat ->
            closes (open_event :: t ++ [CallCertCloseStore h 0]) = 1%nat /\
            exists before,
              open_event :: t ++ [CallCertCloseStore h 0]
              = before ++ [CallCertCloseStore h 0] /\ closes before = 0%nat).
  { intros t Ht. split.
    - change (closes (open_event :: ?x)) with (closes x).
      rewrite closes_app, Ht. reflexivity.
    - exists (open_event :: t). split; [reflexivity|exact Ht]. }
  destruct (outcome (enumerate w fuel h target None)) as [[[] entry|e]|p|];
    cbn [outcome trace fst snd]; intros Hrun;
    try (now apply Hlast); [|congruence].
  replace (trace (enumerate w fuel h target None)
           ++ EnterDecryptDataWithCert None h
              :: trace (decryptDataWithCert w decoded None h)
                 ++ [CallCertCloseStore h 0])
    with ((trace (enumerate w fuel h target None)
           ++ EnterDecryptDataWithCert None h
              :: trace (decryptDataWithCert w decoded None h))
          ++ [CallCertCloseStore h 0])
    by (rewrite <- app_assoc; reflexivity).
  apply Hlast. rewrite closes_app, Hc.
  change (closes (EnterDecryptDataWithCert None h :: ?x)) with (closes x).
  now rewrite Hdc.
Qed.

End PipelineFacts.

(** ** The claims on the decryption and on the enumeration *)

Section Claims.
Context {V : Type} (w : Native V).

(** C2.  In the decryption, a failed size query whose native code is the
    ASN.1 bad-tag code yields the invalid-ciphertext error; a failed size
    query with any other code yields the generic decryption error; and a
    failed fill call yields the generic decryption error whatever its code,
    which is never the invalid-ciphertext error. *)
Theorem decrypt_failure_mapping (decoded : slice.t Z)
  (cert : option CertContext) (h : Z) :
  slice.elems decoded <> [] ->
  let probe := decrypt_probe w decoded h in
  let fill := decrypt_fill w decoded h in
  let result := outcome (decryptDataWithCert w decoded cert h) in
  (raw probe = 0 -> lastError probe = crypteEAsn1BadTag ->
     result = Returned (None, Some InvalidCiphertextFormat)) /\
  (raw probe = 0 -> lastError probe <> crypteEAsn1BadTag ->
     result = Returned (None, Some (DecryptionFailed (lastError probe)))) /\
  (raw probe <> 0 -> uint32 (count probe) <> 0 -> raw fill = 0 ->
     result = Returned (None, Some (DecryptionFailed (lastError fill)))) /\
  (forall errno, DecryptionFailed errno <> InvalidCiphertextFormat).
Proof.
  intros Hne. cbv zeta.
  pose proof (decryptDataWithCert_cases w decoded cert h Hne) as H.
  cbv zeta in H. rewrite H. clear H.
  repeat split.
  - intros Hraw Hcode. rewrite Hraw, Hcode. reflexivity.
  - intros Hraw Hcode. rewrite Hraw. cbn.
    now replace (lastError (decrypt_probe w decoded h) =? crypteEAsn1BadTag)
      with false by (symmetry; now apply Z.eqb_neq).
  - intros Hraw Hcb Hfill.
    replace (raw (decrypt_probe w decoded h) =? 0) with false
      by (symmetry; now apply Z.eqb_neq).
    replace (uint32 (count (decrypt_probe w decoded h)) =? 0) with false
      by (symmetry; now apply Z.eqb_neq).
    now rewrite Hfill.
  - discriminate.
Qed.

(** C6.  When the size query succeeds and announces a size of zero, the
    property query and the decryption both return the [nil] slice, which is
    empty, and no error. *)
Theorem zero_size_is_empty_result :
  (forall cert,
     raw (hash_probe w cert) <> 0 ->
     uint32 (count (hash_probe w cert)) = 0 ->
     outcome (getCertificateThumbprint w cert) = Returned (None, None)) /\
  (forall decoded cert h,
     slice.elems decoded <> [] ->
     raw (decrypt_probe w decoded h) <> 0 ->
     uint32 (count (decrypt_probe w decoded h)) = 0 ->
     outcome (decryptDataWithCert w decoded cert h) = Returned (None, None)) /\
  slice.len (@None (list Z)) = 0%nat.
Proof.
  repeat split.
  - intros cert Hraw Hcb.
    pose proof (getCertificateThumbprint_cases w cert) as H.
    cbv zeta in H. rewrite H, Hcb.
    now replace (raw (hash_probe w cert) =? 0) with false
      by (symmetry; now apply Z.eqb_neq).
  - intros decoded cert h Hne Hraw Hcb.
    pose proof (decryptDataWithCert_cases w decoded cert h Hne) as H.
    cbv zeta in H. rewrite H, Hcb.
    now replace (raw (decrypt_probe w decoded h) =? 0) with false
      by (symmetry; now apply Z.eqb_neq).
Qed.

(** C9.  The decryption does not depend on its certificate argument: with
    the same ciphertext and store handle, any two certificate entries,
    [nil] included, give the same outcome and the same native calls. *)
Theorem decrypt_ignores_certificate (decoded : slice.t Z)
  (cert1 cert2 : option CertContext) (h : Z) :
  decryptDataWithCert w decoded cert1 h = decryptDataWithCert w decoded cert2 h.
Proof. reflexivity. Qed.

Lemma elems_empty_len {A} (s : slice.t A) :
  slice.elems s = [] <-> slice.len s = 0%nat.
Proof.
  unfold slice.len. destruct (slice.elems s); cbn; split; congruence.
Qed.

(** C10.  On an empty ciphertext the decryption panics on the index
    [decoded[0]] before any native call; with at least one byte that index
    is in range and the size query is the first call; so a pipeline that
    reaches the decryption with an empty ciphertext panics. *)
Theorem decrypt_needs_ciphertext :
  (forall decoded cert h,
     slice.len decoded = 0%nat ->
     decryptDataWithCert w decoded cert h = (Panicked IndexOutOfRange, [])) /\
  (forall decoded cert h,
     (1 <= slice.len decoded)%nat ->
     outcome (decryptDataWithCert w decoded cert h) <> Panicked IndexOutOfRange /\
     hd_error (trace (decryptDataWithCert w decoded cert h))
     = Some (CallCryptDecryptMessage (decrypt_parameters decoded h)
               (slice.elems decoded) (Z.of_nat (slice.len decoded)) None 0)) /\
  (forall fuel configFolder thumbprint decoded h,
     open_reply w = (h, None) -> h <> 0 ->
     slice.len decoded = 0%nat ->
     let run := DecryptProtectedSettings w fuel configFolder thumbprint decoded in
     decryption_certificates (trace run) <> [] ->
     outcome run = Panicked IndexOutOfRange).
Proof.
  repeat split.
  - intros decoded cert h Hlen.
    apply decryptDataWithCert_empty. now apply elems_empty_len.
  - pose proof (decryptDataWithCert_cases w decoded cert h) as Hc.
    cbv zeta in Hc. rewrite Hc
      by (intros E; apply elems_empty_len in E; lia).
    repeat match goal with
    | |- context [if ?b then _ else _] => destruct b
    end; cbn; discriminate.
  - pose proof (decryptDataWithCert_cases w decoded cert h) as Hc.
    cbv zeta in Hc. rewrite Hc
      by (intros E; apply elems_empty_len in E; lia).
    repeat match goal with
    | |- context [if ?b then _ else _] => destruct b
    end; reflexivity.
  - intros fuel configFolder thumbprint decoded h Hopen Hh Hlen. cbv zeta.
    rewrite (DecryptProtectedSettings_opened w fuel _ _ _ h Hopen Hh).
    cbv zeta.
    set (target := fst (thumbprintStringToHex thumbprint)).
    destruct (enumerate_quiet w fuel h target None) as (_ & Hd & _).
    rewrite (decryptDataWithCert_empty w decoded None h)
      by now apply elems_empty_len.
    destruct (outcome (enumerate w fuel h target None)) as [[[] entry|e]|p|];
      cbn [outcome trace fst snd decryption_certificates];
      rewrite ?decryption_certificates_app, ?Hd; cbn; congruence.
Qed.

(** C5.  In any round of the loop, the end-of-store condition (the error
    code 0x80092004, or a [nil] entry without error) leaves the loop by
    [break] with nothing found, and any other enumeration error leaves the
    pipeline with that error.  A store whose first enumeration call meets
    the end-of-store condition makes the pipeline end, whatever the number
    of rounds allowed, with the certificate-not-found error.  Whenever the
    loop ends with nothing found the pipeline reports certificate-not-found,
    and no run ever reports the end-of-store code as an enumeration
    failure. *)
Theorem enumeration_end (fuel : nat) (configFolder thumbprint : string)
  (decoded : slice.t Z) (h : Z) :
  open_reply w = (h, None) -> h <> 0 ->
  let target := fst (thumbprintStringToHex thumbprint) in
  let run n := DecryptProtectedSettings w n configFolder thumbprint decoded in
  (forall prev cert,
     CertEnumCertificatesInStore w h prev = (cert, Some (Errno crypteENotFound))
     \/ CertEnumCertificatesInStore w h prev = (None, None) ->
     exists entry,
       enumerate w (S fuel) h target prev
       = (Returned (LoopBreak false entry),
          [CallCertEnumCertificatesInStore h prev])) /\
  (forall prev cert e,
     CertEnumCertificatesInStore w h prev = (cert, Some e) ->
     e <> Errno crypteENotFound ->
     enumerate w (S fuel) h target prev
     = (Returned (LoopReturn (EnumerationFailed e)),
        [CallCertEnumCertificatesInStore h prev])) /\
  (forall cert,
     CertEnumCertificatesInStore w h None = (cert, Some (Errno crypteENotFound))
     \/ CertEnumCertificatesInStore w h None = (None, None) ->
     run (S fuel)
     = (Returned (None, Some CertNotFound),
        [open_event; CallCertEnumCertificatesInStore h None;
         CallCertCloseStore h 0])) /\
  (forall entry,
     outcome (enumerate w fuel h target None)
       = Returned (LoopBreak false entry) ->
     outcome (run fuel) = Returned (None, Some CertNotFound)) /\
  (forall e,
     outcome (enumerate w fuel h target None) = Returned (LoopReturn e) ->
     outcome (run fuel) = Returned (None, Some e)) /\
  (forall v, outcome (run fuel)
             <> Returned (v, Some (EnumerationFailed (Errno crypteENotFound)))).
Proof.
  intros Hopen Hh. cbv zeta.
  set (target := fst (thumbprintStringToHex thumbprint)).
  assert (Hend : forall prev cert,
    CertEnumCertificatesInStore w h prev = (cert, Some (Errno crypteENotFound))
    \/ CertEnumCertificatesInStore w h prev = (None, None) ->
    exists entry,
      enumerate w (S fuel) h target prev
      = (Returned (LoopBreak false entry),
         [CallCertEnumCertificatesInStore h prev])).
  { intros prev cert [E|E]; rewrite enumerate_round; cbv zeta; rewrite E.
    - exists cert. reflexivity.
    - exists None. reflexivity. }
  split; [exact Hend|]. split; [|split; [|split; [|split]]].
  - intros prev cert e E Hne. rewrite enumerate_round. cbv zeta. rewrite E.
    replace (is_crypteENotFound e) with false; [reflexivity|].
    destruct e as [errno|msg]; [|reflexivity]. cbn.
    symmetry. apply Z.eqb_neq. congruence.
  - intros cert E.
    rewrite (DecryptProtectedSettings_opened w (S fuel) _ _ _ h Hopen Hh).
    cbv zeta. fold target.
    destruct (Hend None cert E) as [entry ->]. reflexivity.
  - intros entry E.
    rewrite (DecryptProtectedSettings_opened w fuel _ _ _ h Hopen Hh).
    cbv zeta. fold target. now rewrite E.
  - intros e E.
    rewrite (DecryptProtectedSettings_opened w fuel _ _ _ h Hopen Hh).
    cbv zeta. fold target. now rewrite E.
  - intros v H.
    apply DecryptProtectedSettings_errors in H.
    inversion H as [| |e He Heq| | | |]. vm_compute in He. discriminate He.
Qed.

End Claims.

(** C1.  On a store whose only certificate has the thumbprint AB 12, asked
    for "AB12": the loop stops at that entry with [found] set, and the
    certificate handed to the decryption is [nil], not that entry. *)
Theorem matched_entry_not_passed :
  let w := fake_native store_one in
  let run := DecryptProtectedSettings w 2 "" "AB12" (Some [1; 2; 3]) in
  open_reply w = (700, None) /\
  fst (thumbprintStringToHex "AB12") = [0xAB; 0x12] /\
  outcome (getCertificateThumbprint w (Some 1))
    = Returned (Some [0xAB; 0x12], None) /\
  outcome (enumerate w 2 700 [0xAB; 0x12] None)
    = Returned (LoopBreak true (Some 1)) /\
  decryption_certificates (trace run) = [None].
Proof. vm_compute. repeat split. Qed.

(** ** The resolver on a test store *)

Section FakeStoreFacts.
Variable s : FakeStore.
Local Abbreviation w := (fake_native s).
Local Abbreviation certs := (fs_certs s).

Lemma overwrite_exact (hash : list Z) :
  overwrite (slice.make (List.length hash)) hash = hash.
Proof.
  unfold overwrite, slice.make.
  rewrite repeat_length, skipn_all2 by (rewrite repeat_length; lia).
  rewrite app_nil_r. apply firstn_all.
Qed.

Lemma fake_enum_cursor (i : nat) :
  fake_enum certs (fs_end s) (cursor i) =
    if (i <? List.length certs)%nat
    then (Some (Z.of_nat (S i)), None)
    else (None, fs_end s).
Proof.
  unfold fake_enum. destruct i as [|i]; [reflexivity|].
  cbn [cursor]. now rewrite Nat2Z.id.
Qed.

(** The thumbprint the property query computes for the entry at position
    [i]. *)
Lemma fake_thumbprint (i : nat) (entry : option (list Z)) :
  nth_error certs i = Some entry ->
  match entry with
  | Some hash => Z.of_nat (List.length hash) < 2 ^ 32
  | None => True
  end ->
  outcome (getCertificateThumbprint w (@Some CertContext (Z.of_nat (S i)))) =
    match entry with
    | Some (b :: hash) => Returned (Some (b :: hash), None)
    | Some [] => Returned (None, None)
    | None => Returned (None, Some (HashingFailed crypteENotFound))
    end.
Proof.
  intros Hnth Hsmall.
  pose proof (getCertificateThumbprint_cases w
                (@Some CertContext (Z.of_nat (S i)))) as H.
  cbv zeta in H. rewrite H. clear H.
  assert (Hprop : forall pv,
    fake_property certs (@Some CertContext (Z.of_nat (S i))) pv =
      match entry with
      | Some hash =>
        {| raw := 1;
           written := match pv with None => [] | Some _ => hash end;
           count := Z.of_nat (List.length hash);
           lastError := 0 |}
      | None =>
        {| raw := 0; written := []; count := 0; lastError := crypteENotFound |}
      end).
  { intros pv. unfold fake_property.
    replace (Z.to_nat (Z.of_nat (S i)) - 1)%nat with i by lia.
    rewrite Hnth. now destruct entry. }
  unfold hash_fill, hash_probe.
  change (CertGetCertificateContextProperty w) with
    (fun c (_ : Z) pv (_ : Z) => fake_property certs c pv).
  cbv beta. rewrite !Hprop.
  destruct entry as [hash|]; [|reflexivity].
  cbn [raw count written lastError]. change (1 =? 0) with false. cbv iota.
  unfold uint32. rewrite Z.mod_small by lia.
  destruct hash as [|b hash]; [reflexivity|].
  replace (Z.of_nat (List.length (b :: hash)) =? 0) with false
    by (symmetry; apply Z.eqb_neq; cbn [List.length]; lia).
  rewrite Nat2Z.id, overwrite_exact. reflexivity.
Qed.

Lemma first_match_skipn (target : list Z) (i : nat) (entry : option (list Z)) :
  nth_error certs i = Some entry ->
  first_match target (skipn i certs) i =
    if entry_matches target entry then Some i
    else first_match target (skipn (S i) certs) (S i).
Proof.
  intros Hnth.
  assert (E : skipn i certs = entry :: skipn (S i) certs).
  { revert i Hnth. generalize certs as l.
    induction l as [|x l IH]; intros [|i] Hnth; cbn in *;
      try discriminate; [now inversion Hnth|now apply IH]. }
  now rewrite E.
Qed.

(** With more rounds than entries left, the loop ends: at the first entry
    that matches the target, or at the end of the store. *)
Lemma fake_enumerate_from (h : Z) (target : list Z) :
  small_hashes certs ->
  forall fuel i,
    (i <= List.length certs)%nat ->
    (List.length certs - i < fuel)%nat ->
    outcome (enumerate w fuel h target (cursor i)) =
      Returned
        match first_match target (skipn i certs) i with
        | Some p => LoopBreak true (Some (Z.of_nat (S p)))
        | None => end_exit (fs_end s)
        end.
Proof.
  intros Hsmall. induction fuel as [|fuel IH]; intros i Hi Hfuel; [lia|].
  rewrite enumerate_round. cbv zeta.
  change (CertEnumCertificatesInStore w h (cursor i))
    with (fake_enum certs (fs_end s) (cursor i)).
  rewrite fake_enum_cursor.
  destruct (i <? List.length certs)%nat eqn:Ei.
  - apply Nat.ltb_lt in Ei. cbv beta iota zeta.
    destruct (nth_error certs i) as [entry|] eqn:Hnth;
      [|apply nth_error_None in Hnth; lia].
    assert (Hentry : match entry with
                     | Some hash => Z.of_nat (List.length hash) < 2 ^ 32
                     | None => True
                     end).
    { unfold small_hashes in Hsmall. rewrite Forall_forall in Hsmall.
      apply (Hsmall entry). eapply nth_error_In; eassumption. }
    rewrite (fake_thumbprint i entry Hnth Hentry).
    rewrite (first_match_skipn target i entry Hnth).
    change (Some (Z.of_nat (S i))) with (cursor (S i)).
    destruct entry as [[|b hash]|]; cbn [entry_matches outcome fst].
    + apply IH; lia.
    + destruct (bytes_Compare target (b :: hash) =? 0);
        cbn [outcome fst]; [reflexivity|apply IH; lia].
    + apply IH; lia.
  - apply Nat.ltb_ge in Ei. cbv beta iota zeta.
    rewrite skipn_all2 by lia. cbn [first_match]. unfold end_exit.
    destruct (fs_end s) as [e|]; [|reflexivity].
    destruct (is_crypteENotFound e); reflexivity.
Qed.

(** The resolver on a test store: it ends, having stopped at the first
    entry whose thumbprint is the target. *)
Lemma fake_store_resolution (h : Z) (target : list Z) (fuel : nat) :
  small_hashes certs ->
  (List.length certs < fuel)%nat ->
  outcome (enumerate w fuel h target None) =
    Returned
      match first_match target certs 0 with
      | Some p => LoopBreak true (Some (Z.of_nat (S p)))
      | None => end_exit (fs_end s)
      end.
Proof.
  intros Hsmall Hfuel.
  apply (fake_enumerate_from h target Hsmall fuel 0%nat); lia.
Qed.

(** The pipeline on a test store ends when it is given more rounds than
    the store has entries. *)
Lemma fake_store_pipeline_ends (fuel : nat) (configFolder thumbprint : string)
  (decoded : slice.t Z) :
  small_hashes certs ->
  (List.length certs < fuel)%nat ->
  outcome (DecryptProtectedSettings w fuel configFolder thumbprint decoded)
  <> OutOfFuel.
Proof.
  intros Hsmall Hfuel.
  destruct (open_reply w) as [h [e|]] eqn:Hopen.
  - destruct (DecryptProtectedSettings_not_opened w fuel configFolder
                thumbprint decoded) as (Herr & _).
    rewrite (Herr h e Hopen). discriminate.
  - destruct (Z.eq_dec h 0) as [->|Hh].
    + destruct (DecryptProtectedSettings_not_opened w fuel configFolder
                  thumbprint decoded) as (_ & Hnull).
      rewrite (Hnull Hopen). discriminate.
    + rewrite (DecryptProtectedSettings_opened w fuel _ _ _ h Hopen Hh).
      cbv zeta.
      rewrite (fake_store_resolution h _ fuel Hsmall Hfuel).
      destruct (decryptDataWithCert_trace w decoded None h) as (_ & _ & Hd).
      destruct (first_match _ certs 0); cbn [outcome fst].
      * destruct (outcome (decryptDataWithCert w decoded None h))
          as [[bytes [e|]]|p|]; try discriminate. now contradiction Hd.
      * unfold end_exit. destruct (fs_end s) as [e|]; [|discriminate].
        destruct (is_crypteENotFound e); discriminate.
Qed.

End FakeStoreFacts.

(** ** The certificate given to the decryption *)

Section DecryptionCertificate.
Context {V : Type} (w : Native V).

(** Whatever the collaborators reply, the pipeline hands the decryption a
    [nil] certificate, and does so only after the loop stopped at an entry
    hashed to the target. *)
Lemma decryption_certificate_is_nil (fuel : nat)
  (configFolder thumbprint : string) (decoded : slice.t Z) :
  let run := DecryptProtectedSettings w fuel configFolder thumbprint decoded in
  decryption_certificates (trace run) = [] \/
  (decryption_certificates (trace run) = [None] /\
   exists h c candidate,
     open_reply w = (h, None) /\
     outcome (enumerate w fuel h (fst (thumbprintStringToHex thumbprint)) None)
       = Returned (LoopBreak true (Some c)) /\
     outcome (getCertificateThumbprint w (Some c))
       = Returned (Some candidate, None) /\
     candidate = fst (thumbprintStringToHex thumbprint)).
Proof.
  cbv zeta.
  destruct (open_reply w) as [h [e|]] eqn:Hopen.
  { destruct (DecryptProtectedSettings_not_opened w fuel configFolder
                thumbprint decoded) as (Herr & _).
    rewrite (Herr h e Hopen). now left. }
  destruct (Z.eq_dec h 0) as [->|Hh].
  { destruct (DecryptProtectedSettings_not_opened w fuel configFolder
                thumbprint decoded) as (_ & Hnull).
    rewrite (Hnull Hopen). now left. }
  rewrite (DecryptProtectedSettings_opened w fuel _ _ _ h Hopen Hh).
  cbv zeta.
  set (target := fst (thumbprintStringToHex thumbprint)).
  destruct (enumerate_quiet w fuel h target None) as (_ & Hd & _).
  destruct (decryptDataWithCert_trace w decoded None h) as (_ & Hdd & _).
  pose proof (enumerate_found w fuel h target None) as Hfound.
  destruct (outcome (enumerate w fuel h target None))
    as [[[] entry|e]|p|] eqn:Eloop;
    cbn [trace snd decryption_certificates];
    rewrite ?decryption_certificates_app, ?Hd;
    cbn [app decryption_certificates];
    rewrite ?decryption_certificates_app, ?Hdd; try (now left).
  right. split; [reflexivity|].
  destruct (Hfound entry eq_refl) as (c & candidate & -> & Hq & Hcmp).
  exists h, c, candidate.
  split; [reflexivity|]. split; [exact Eloop|]. split; [exact Hq|].
  symmetry. now apply bytes_Compare_eq.
Qed.

End DecryptionCertificate.

(** ** The claims at concrete inputs *)

Lemma thumbprint_codec_total_witness :
  snd (thumbprintStringToHex "xAB1g") = None /\
  List.length (fst (thumbprintStringToHex "xAB1g")) = 2%nat /\
  nth 0 (fst (thumbprintStringToHex "xAB1g")) 0 = 0xAB /\
  nth 1 (fst (thumbprintStringToHex "xAB1g")) 0 = 0.
Proof.
  destruct (thumbprint_codec_total "xAB1g") as (Herr & Hlen & Hnth & _).
  split; [exact Herr|]. split; [rewrite Hlen; reflexivity|]. split.
  - rewrite (Hnth 0%nat); [reflexivity|vm_compute; lia].
  - rewrite (Hnth 1%nat); [reflexivity|vm_compute; lia].
Defined.

Lemma thumbprint_codec_round_trip_witness :
  CodecSpec.hex_encode true (fst (thumbprintStringToHex "aB12cd")) = "AB12CD"%string /\
  fst (thumbprintStringToHex "AB12CD") = fst (thumbprintStringToHex "aB12cd").
Proof.
  assert (Hv : CodecSpec.valid_hex "aB12cd") by (split; reflexivity).
  destruct (thumbprint_codec_round_trip "aB12cd" Hv)
    as (_ & Hu & _ & _ & _ & _ & Hcase).
  split.
  - rewrite Hu. reflexivity.
  - apply Hcase; [split; reflexivity|reflexivity].
Defined.

Lemma store_open_failures_witness :
  DecryptProtectedSettings
    (fake_native (with_open store_one (0, Some (Errno 5)))) 1 "" "AB12" (Some [1])
  = (Returned (None, Some (StoreAccessDenied (Errno 5))), [open_event]) /\
  DecryptProtectedSettings
    (fake_native (with_open store_one (0, None))) 1 "" "AB12" (Some [1])
  = (Returned (None, Some PermissionRequired), [open_event]).
Proof.
  split.
  - destruct (store_open_failures
                (fake_native (with_open store_one (0, Some (Errno 5))))
                1 "" "AB12" (Some [1])) as (Herr & _ & _).
    apply (Herr 0). reflexivity.
  - destruct (store_open_failures
                (fake_native (with_open store_one (0, None)))
                1 "" "AB12" (Some [1])) as (_ & Hnull & _).
    apply Hnull. reflexivity.
Defined.

Lemma store_closed_once_witness :
  closes (trace (DecryptProtectedSettings (fake_native store_three) 4 ""
                   "AB12" (Some [1]))) = 1%nat.
Proof.
  apply (store_closed_once (fake_native store_three) 4 "" "AB12" (Some [1]) 700).
  - reflexivity.
  - lia.
  - vm_compute. discriminate.
Defined.

Lemma decrypt_failure_mapping_witness :
  outcome (decryptDataWithCert
             (fake_native (with_decrypt store_one
                             (reply_failed crypteEAsn1BadTag) (reply_failed 5)))
             (Some [1]) None 700)
  = Returned (None, Some InvalidCiphertextFormat) /\
  outcome (decryptDataWithCert
             (fake_native (with_decrypt store_one
                             (reply_failed 5) (reply_failed 5)))
             (Some [1]) None 700)
  = Returned (None, Some (DecryptionFailed 5)) /\
  outcome (decryptDataWithCert
             (fake_native (with_decrypt store_one
                             (reply_ok [0; 0]) (reply_failed crypteEAsn1BadTag)))
             (Some [1]) None 700)
  = Returned (None, Some (DecryptionFailed crypteEAsn1BadTag)).
Proof.
  split; [|split].
  - destruct (decrypt_failure_mapping
                (fake_native (with_decrypt store_one
                                (reply_failed crypteEAsn1BadTag) (reply_failed 5)))
                (Some [1]) None 700) as (Hbad & _); [discriminate|].
    apply Hbad; reflexivity.
  - destruct (decrypt_failure_mapping
                (fake_native (with_decrypt store_one
                                (reply_failed 5) (reply_failed 5)))
                (Some [1]) None 700) as (_ & Hother & _); [discriminate|].
    apply Hother; [reflexivity|vm_compute; discriminate].
  - destruct (decrypt_failure_mapping
                (fake_native (with_decrypt store_one
                                (reply_ok [0; 0]) (reply_failed crypteEAsn1BadTag)))
                (Some [1]) None 700) as (_ & _ & Hfill & _); [discriminate|].
    apply Hfill; [vm_compute; discriminate|vm_compute; discriminate|reflexivity].
Defined.

Lemma zero_size_is_empty_result_witness :
  outcome (getCertificateThumbprint (fake_native store_zero) (Some 1))
  = Returned (None, None) /\
  outcome (decryptDataWithCert (fake_native store_zero) (Some [1]) None 700)
  = Returned (None, None).
Proof.
  destruct (zero_size_is_empty_result (fake_native store_zero))
    as (Hhash & Hdec & _).
  split.
  - apply Hhash; [vm_compute; discriminate|reflexivity].
  - apply Hdec; [discriminate|vm_compute; discriminate|reflexivity].
Defined.

Lemma decrypt_needs_ciphertext_witness :
  outcome (DecryptProtectedSettings (fake_native store_one) 2 "" "AB12" (Some []))
  = Panicked IndexOutOfRange /\
  outcome (decryptDataWithCert (fake_native store_one) (Some [1]) None 700)
  <> Panicked IndexOutOfRange.
Proof.
  destruct (decrypt_needs_ciphertext (fake_native store_one))
    as (_ & Hsafe & Hpipe).
  split.
  - apply (Hpipe 2%nat ""%string "AB12"%string (Some []) 700);
      [reflexivity|lia|reflexivity|vm_compute; discriminate].
  - apply (Hsafe (Some [1]) None 700). vm_compute. lia.
Defined.

Lemma enumeration_end_witness :
  DecryptProtectedSettings (fake_native store_empty) 1 "" "AB12" (Some [1])
  = (Returned (None, Some CertNotFound),
     [open_event; CallCertEnumCertificatesInStore 700 None;
      CallCertCloseStore 700 0]) /\
  DecryptProtectedSettings (fake_native (with_end store_empty None)) 1 ""
    "AB12" (Some [1])
  = (Returned (None, Some CertNotFound),
     [open_event; CallCertEnumCertificatesInStore 700 None;
      CallCertCloseStore 700 0]) /\
  outcome (DecryptProtectedSettings
             (fake_native (with_end store_three (Some (Errno 5)))) 4 ""
             "0000" (Some [1]))
  = Returned (None, Some (EnumerationFailed (Errno 5))).
Proof.
  split; [|split].
  - destruct (enumeration_end (fake_native store_empty) 0 "" "AB12"
                (Some [1]) 700) as (_ & _ & Hempty & _); [reflexivity|lia|].
    apply (Hempty None). left. reflexivity.
  - destruct (enumeration_end (fake_native (with_end store_empty None)) 0 ""
                "AB12" (Some [1]) 700) as (_ & _ & Hempty & _);
      [reflexivity|lia|].
    apply (Hempty None). right. reflexivity.
  - destruct (enumeration_end (fake_native (with_end store_three (Some (Errno 5))))
                4 "" "0000" (Some [1]) 700) as (_ & _ & _ & _ & Hret & _);
      [reflexivity|lia|].
    apply Hret. reflexivity.
Defined.

(** * Further properties of the package *)

(** ** The codec on spellings of one thumbprint *)

Section CodecSpellings.
Import GoString CodecSpec.

Lemma to_lower_of_decode (s : string) :
  valid_hex s ->
  hex_encode false (fst (thumbprintStringToHex s)) = to_lower s.
Proof.
  intros Hs. rewrite (thumbprintStringToHex_valid s Hs). cbn [fst].
  now destruct (hex_encode_decode_pairs s Hs).
Qed.

Lemma decode_of_to_lower (s t : string) :
  valid_hex s -> valid_hex t -> to_lower s = to_lower t ->
  thumbprintStringToHex s = thumbprintStringToHex t.
Proof.
  intros Hs Ht E.
  rewrite (thumbprintStringToHex_valid s Hs), (thumbprintStringToHex_valid t Ht).
  f_equal.
  rewrite <- (decode_pairs_to_lower s), E. apply decode_pairs_to_lower.
Qed.

(** X1.  Two well-formed thumbprint texts (hexadecimal digits, an even
    number of them) decode to the same bytes exactly when they are the same
    text up to the case of their letters. *)
Theorem same_bytes_iff_same_text_up_to_case (s t : string) :
  valid_hex s -> valid_hex t ->
  (fst (thumbprintStringToHex s) = fst (thumbprintStringToHex t)
   <-> to_lower s = to_lower t).
Proof.
  intros Hs Ht. split.
  - intros E. rewrite <- (to_lower_of_decode s Hs), <- (to_lower_of_decode t Ht).
    now rewrite E.
  - intros E. now rewrite (decode_of_to_lower s t Hs Ht E).
Qed.

Lemma DecodeRuneInString_byte_order_mark (t : string) :
  utf8.DecodeRuneInString (byte_order_mark ++ t) = (0xFEFF, 3%nat).
Proof. vm_compute. reflexivity. Qed.

Lemma runes_from_step (fuel : nat) (c : ascii) (t : string) :
  utf8.runes_from (S fuel) (String c t)
  = fst (utf8.DecodeRuneInString (String c t))
    :: utf8.runes_from fuel
         (drop (snd (utf8.DecodeRuneInString (String c t))) (String c t)).
Proof.
  cbn [utf8.runes_from].
  now destruct (utf8.DecodeRuneInString (String c t)).
Qed.

Lemma runes_byte_order_mark (t : string) :
  Forall (fun b => b < 128) (bytes_of_string t) ->
  utf8.runes_of_string (byte_order_mark ++ t) = 0xFEFF :: bytes_of_string t.
Proof.
  intros Ht. unfold utf8.runes_of_string.
  change (String.length (byte_order_mark ++ t))
    with (S (S (S (String.length t)))).
  change ((byte_order_mark ++ t)%string)
    with (String "239" (String "187" (String "191" t))).
  rewrite runes_from_step.
  change (String "239" (String "187" (String "191" t)))
    with (byte_order_mark ++ t)%string.
  rewrite DecodeRuneInString_byte_order_mark. cbn [fst snd].
  f_equal. change (drop 3 (byte_order_mark ++ t)) with t.
  apply runes_from_ascii; [lia|exact Ht].
Qed.

Lemma effective_after_one (r : Z) (l : list Z) :
  Nat.even (List.length l) = true -> effective (r :: l) = l.
Proof.
  intros He. unfold effective. cbn [List.length].
  now rewrite Nat.odd_succ, He.
Qed.

Lemma thumbprintStringToHex_stray (t : string) :
  valid_hex t ->
  thumbprintStringToHex (byte_order_mark ++ t) = thumbprintStringToHex t /\
  (forall c, byte_val c < 128 ->
     thumbprintStringToHex (String c t) = thumbprintStringToHex t).
Proof.
  intros Ht. pose proof Ht as [Hhex Heven].
  pose proof (all_hex_ascii t Hhex) as Hascii.
  assert (Hlen : Nat.even (List.length (bytes_of_string t)) = true)
    by now rewrite bytes_of_string_length.
  rewrite (thumbprintStringToHex_valid t Ht). split.
  - rewrite thumbprintStringToHex_pairs, runes_byte_order_mark by exact Hascii.
    now rewrite effective_after_one.
  - intros c Hc.
    rewrite thumbprintStringToHex_pairs.
    rewrite runes_of_string_ascii
      by (cbn [bytes_of_string]; constructor; assumption).
    cbn [bytes_of_string]. now rewrite effective_after_one.
Qed.

(** X2.  One stray character in front of a well-formed thumbprint text is
    dropped unseen: with a UTF-8 byte order mark in front, or with any one
    ASCII character in front (a further hexadecimal digit included), the
    codec returns what it returns for the text alone. *)
Theorem leading_character_dropped (t : string) :
  valid_hex t ->
  thumbprintStringToHex (byte_order_mark ++ t) = thumbprintStringToHex t /\
  (forall c, byte_val c < 128 ->
     thumbprintStringToHex (String c t) = thumbprintStringToHex t).
Proof. exact (thumbprintStringToHex_stray t). Qed.

End CodecSpellings.

Lemma same_bytes_iff_same_text_up_to_case_witness :
  fst (thumbprintStringToHex "aB12") = fst (thumbprintStringToHex "Ab12").
Proof.
  apply (same_bytes_iff_same_text_up_to_case "aB12" "Ab12");
    [split; reflexivity|split; reflexivity|reflexivity].
Defined.

Lemma leading_character_dropped_witness :
  thumbprintStringToHex "3AB12" = thumbprintStringToHex "AB12".
Proof.
  destruct (leading_character_dropped "AB12") as [_ Hone];
    [split; reflexivity|].
  apply (Hone "3"%char). vm_compute. reflexivity.
Defined.

(** ** What the two-phase queries return *)

Section QueryResults.
Context {V : Type} (w : Native V).

Lemma overwrite_length (buf data : list Z) :
  List.length (overwrite buf data) = List.length buf.
Proof.
  unfold overwrite. rewrite firstn_length_le; [reflexivity|].
  rewrite length_app, length_skipn. lia.
Qed.

Lemma overwrite_whole (buf data : list Z) :
  List.length data = List.length buf -> overwrite buf data = data.
Proof.
  intros E. unfold overwrite.
  rewrite skipn_all2 by lia. rewrite app_nil_r, <- E. apply firstn_all.
Qed.

Lemma make_length (n : nat) : List.length (slice.make n) = n.
Proof. apply repeat_length. Qed.

Lemma uint32_range (x : Z) : 0 <= uint32 x < 2 ^ 32.
Proof. unfold uint32. apply Z.mod_pos_bound. lia. Qed.

(** X3.  When the property query returns a thumbprint, it returns no
    error; both native calls succeeded; the thumbprint is not empty and has
    exactly the size the size query announced, whatever count the second
    call reports; and it is what the second call wrote, when that filled the
    whole buffer. *)
Theorem thumbprint_has_announced_size (cert : option CertContext)
  (hash : list Z) (err : option error) :
  outcome (getCertificateThumbprint w cert) = Returned (Some hash, err) ->
  err = None /\
  raw (hash_probe w cert) <> 0 /\ raw (hash_fill w cert) <> 0 /\
  Z.of_nat (List.length hash) = uint32 (count (hash_probe w cert)) /\
  (0 < List.length hash)%nat /\
  (List.length (written (hash_fill w cert)) = List.length hash ->
   hash = written (hash_fill w cert)).
Proof.
  pose proof (getCertificateThumbprint_cases w cert) as H. cbv zeta in H.
  rewrite H. clear H.
  pose proof (uint32_range (count (hash_probe w cert))) as Hcb.
  destruct (raw (hash_probe w cert) =? 0) eqn:Eprobe; [cbn; discriminate|].
  destruct (uint32 (count (hash_probe w cert)) =? 0) eqn:Ecb;
    [cbn; discriminate|].
  destruct (raw (hash_fill w cert) =? 0) eqn:Efill; [cbn; discriminate|].
  cbn [outcome fst]. intros Hr. inversion Hr; subst. clear Hr.
  apply Z.eqb_neq in Eprobe, Ecb, Efill.
  rewrite overwrite_length, make_length.
  repeat split; try assumption; try lia.
  intros Hw. apply overwrite_whole. now rewrite make_length.
Qed.

(** X4.  A failure of either call of the property query is reported as a
    hashing failure carrying the last-error code of the call that failed,
    with a [nil] thumbprint; the failed size query is the only call
    made. *)
Theorem hashing_failure_reported (cert : option CertContext) :
  (raw (hash_probe w cert) = 0 ->
     getCertificateThumbprint w cert
     = (Returned (None, Some (HashingFailed (lastError (hash_probe w cert)))),
        [CallCertGetCertificateContextProperty cert certHashPropID None 0])) /\
  (raw (hash_probe w cert) <> 0 ->
   uint32 (count (hash_probe w cert)) <> 0 ->
   raw (hash_fill w cert) = 0 ->
     outcome (getCertificateThumbprint w cert)
     = Returned (None, Some (HashingFailed (lastError (hash_fill w cert))))).
Proof.
  pose proof (getCertificateThumbprint_cases w cert) as H. cbv zeta in H.
  rewrite H. clear H. split.
  - intros ->. reflexivity.
  - intros Hp Hcb Hf.
    replace (raw (hash_probe w cert) =? 0) with false
      by (symmetry; now apply Z.eqb_neq).
    replace (uint32 (count (hash_probe w cert)) =? 0) with false
      by (symmetry; now apply Z.eqb_neq).
    now rewrite Hf.
Qed.

(** X5.  When the decryption returns plaintext, it returns no error; the
    ciphertext was not empty and both native calls succeeded; the plaintext
    has exactly the length the second call reported, which is at most the
    size the first call announced; and it is the start of the buffer the
    second call filled. *)
Theorem plaintext_has_reported_length (decoded : slice.t Z)
  (cert : option CertContext) (h : Z) (plain : list Z) (err : option error) :
  outcome (decryptDataWithCert w decoded cert h) = Returned (Some plain, err) ->
  let probe := decrypt_probe w decoded h in
  let fill := decrypt_fill w decoded h in
  err = None /\
  (1 <= slice.len decoded)%nat /\
  raw probe <> 0 /\ raw fill <> 0 /\
  Z.of_nat (List.length plain) = uint32 (count fill) /\
  uint32 (count fill) <= uint32 (count probe) /\
  plain = firstn (List.length plain)
            (overwrite (slice.make (Z.to_nat (uint32 (count probe))))
                       (written fill)).
Proof.
  cbv zeta.
  destruct (slice.elems decoded) as [|b0 rest] eqn:Eblob.
  { rewrite decryptDataWithCert_empty by exact Eblob. cbn. discriminate. }
  assert (Hlen : (1 <= slice.len decoded)%nat)
    by (unfold slice.len; rewrite Eblob; cbn; lia).
  pose proof (decryptDataWithCert_cases w decoded cert h) as H.
  cbv zeta in H. rewrite H by congruence. clear H.
  pose proof (uint32_range (count (decrypt_probe w decoded h))) as Hcb.
  pose proof (uint32_range (count (decrypt_fill w decoded h))) as Hcf.
  destruct (raw (decrypt_probe w decoded h) =? 0) eqn:Eprobe;
    [cbn; discriminate|].
  destruct (uint32 (count (decrypt_probe w decoded h)) =? 0) eqn:Ecb;
    [cbn; discriminate|].
  destruct (raw (decrypt_fill w decoded h) =? 0) eqn:Efill;
    [cbn; discriminate|].
  rewrite overwrite_length, make_length.
  destruct (_ <? _) eqn:Ebound; cbn [outcome fst]; [discriminate|].
  intros Hr. inversion Hr; subst. clear Hr.
  apply Z.eqb_neq in Eprobe, Ecb, Efill. apply Z.ltb_ge in Ebound.
  assert (Hfl : List.length
                  (firstn (Z.to_nat (uint32 (count (decrypt_fill w decoded h))))
                     (overwrite
                        (slice.make
                           (Z.to_nat (uint32 (count (decrypt_probe w decoded h)))))
                        (written (decrypt_fill w decoded h))))
                = Z.to_nat (uint32 (count (decrypt_fill w decoded h)))).
  { rewrite firstn_length_le; [reflexivity|].
    rewrite overwrite_length, make_length. lia. }
  rewrite Hfl.
  repeat split; try assumption; lia.
Qed.

(** When the slice [decryptedBytes[:n]] is out of bounds. *)
Lemma slice_panic_iff (decoded : slice.t Z)
  (cert : option CertContext) (h : Z) :
  let probe := decrypt_probe w decoded h in
  let fill := decrypt_fill w decoded h in
  outcome (decryptDataWithCert w decoded cert h)
    = Panicked SliceBoundsOutOfRange
  <-> ((1 <= slice.len decoded)%nat /\
       raw probe <> 0 /\ raw fill <> 0 /\
       0 < uint32 (count probe) < uint32 (count fill)).
Proof.
  cbv zeta.
  destruct (slice.elems decoded) as [|b0 rest] eqn:Eblob.
  { rewrite decryptDataWithCert_empty by exact Eblob.
    assert (slice.len decoded = 0%nat) by (unfold slice.len; now rewrite Eblob).
    cbn. split; [discriminate|]. intros (Hl & _). lia. }
  assert (Hlen : (1 <= slice.len decoded)%nat)
    by (unfold slice.len; rewrite Eblob; cbn; lia).
  pose proof (decryptDataWithCert_cases w decoded cert h) as H.
  cbv zeta in H. rewrite H by congruence. clear H.
  pose proof (uint32_range (count (decrypt_probe w decoded h))) as Hcb.
  pose proof (uint32_range (count (decrypt_fill w decoded h))) as Hcf.
  destruct (raw (decrypt_probe w decoded h) =? 0) eqn:Eprobe.
  { apply Z.eqb_eq in Eprobe. cbn. split; [discriminate|]. tauto. }
  destruct (uint32 (count (decrypt_probe w decoded h)) =? 0) eqn:Ecb.
  { apply Z.eqb_eq in Ecb. cbn [outcome fst].
    split; [discriminate|]. intros (_ & _ & _ & Hlt). lia. }
  rewrite overwrite_length, make_length.
  destruct (raw (decrypt_fill w decoded h) =? 0) eqn:Efill.
  { apply Z.eqb_eq in Efill. cbn. split; [discriminate|]. tauto. }
  apply Z.eqb_neq in Eprobe, Ecb, Efill.
  destruct (_ <? _) eqn:Ebound; cbn [outcome fst].
  - apply Z.ltb_lt in Ebound. split; [intros _|reflexivity].
    repeat split; try assumption; lia.
  - apply Z.ltb_ge in Ebound. split; [discriminate|].
    intros (_ & _ & _ & Hlt). lia.
Qed.



(** X6.  The decryption panics on the slice [decryptedBytes[:n]] exactly
    when both native calls succeeded on a ciphertext that is not empty, the
    first call announced a size that is not zero, and the second call
    reported a length [n] above that size. *)
Theorem fill_beyond_probe_panics (decoded : slice.t Z)
  (cert : option CertContext) (h : Z) :
  let probe := decrypt_probe w decoded h in
  let fill := decrypt_fill w decoded h in
  outcome (decryptDataWithCert w decoded cert h)
    = Panicked SliceBoundsOutOfRange
  <-> ((1 <= slice.len decoded)%nat /\
       raw probe <> 0 /\ raw fill <> 0 /\
       0 < uint32 (count probe) < uint32 (count fill)).
Proof. exact (slice_panic_iff decoded cert h). Qed.

End QueryResults.

(** ** The resolver on a store that hands out its entries in order *)

Section ResolverFacts.
Context {V : Type} (w : Native V).

(** The loop on such a store: it ends within one round per entry and one
    more, at the first entry that matches or at the end of the store. *)
Lemma enumerate_resolution (h : Z) (target : list Z)
  (last : option CertContext * option foreign_error) :
  forall cs prev fuel,
    enumerates w h prev cs last ->
    (List.length cs < fuel)%nat ->
    outcome (enumerate w fuel h target prev)
    = Returned (resolution w target cs last).
Proof.
  induction cs as [|c cs IH]; intros prev fuel Hen Hfuel;
    (destruct fuel as [|fuel]; [cbn in Hfuel; lia|]);
    rewrite enumerate_round; cbv zeta.
  - destruct Hen as [Hreply Hend]. rewrite Hreply.
    destruct last as [cert [e|]]; cbn [resolution reply_exit].
    + destruct (is_crypteENotFound e); reflexivity.
    + destruct cert as [c|]; [discriminate Hend|reflexivity].
  - destruct Hen as [Hreply Hrest]. rewrite Hreply.
    cbn [resolution]. unfold thumbprint_matches.
    assert (Hgo : outcome (enumerate w fuel h target (Some c))
                  = Returned (resolution w target cs last))
      by (apply IH; [exact Hrest|cbn in Hfuel; lia]).
    destruct (outcome (getCertificateThumbprint w (Some c)))
      as [[[candidate|] [e|]]|p|] eqn:Eq; cbn [outcome fst];
      try exact Hgo.
    + destruct (bytes_Compare target candidate =? 0); [reflexivity|exact Hgo].
    + destruct (getCertificateThumbprint_returns w (Some c)) as [res Hres].
      congruence.
    + destruct (getCertificateThumbprint_returns w (Some c)) as [res Hres].
      congruence.
Qed.

Lemma resolution_no_match (target : list Z) (cs : list CertContext)
  (last : option CertContext * option foreign_error) :
  forallb (fun c => negb (thumbprint_matches w target c)) cs = true ->
  resolution w target cs last = reply_exit last.
Proof.
  induction cs as [|c cs IH]; cbn [forallb resolution]; [reflexivity|].
  intros H. apply andb_true_iff in H. destruct H as [Hc Hcs].
  destruct (thumbprint_matches w target c); [discriminate|now apply IH].
Qed.

Lemma resolution_match (target : list Z) (cs : list CertContext)
  (last : option CertContext * option foreign_error) :
  existsb (thumbprint_matches w target) cs = true ->
  exists before c after,
    cs = before ++ c :: after /\
    forallb (fun c => negb (thumbprint_matches w target c)) before = true /\
    thumbprint_matches w target c = true /\
    resolution w target cs last = LoopBreak true (Some c).
Proof.
  induction cs as [|c cs IH]; cbn [existsb resolution]; [discriminate|].
  destruct (thumbprint_matches w target c) eqn:Ec.
  - intros _. exists [], c, cs. repeat split; assumption.
  - cbn [orb]. intros H. destruct (IH H) as (before & c' & after & -> & Hb & Hc & Hr).
    exists (c :: before), c', after. repeat split; try assumption.
    cbn [forallb]. now rewrite Ec, Hb.
Qed.

(** X7.  On a store that hands out the entries [cs] in order and then
    answers [last], the loop ends within [length cs + 1] rounds: at the
    first entry whose computed thumbprint equals the target, every entry
    before it having been passed over (no thumbprint, an empty one, or other
    bytes); or, when no entry matches, the way [last] makes it end. *)
Theorem resolver_stops_at_first_match (h : Z) (target : list Z)
  (cs : list CertContext) (last : option CertContext * option foreign_error)
  (prev : option CertContext) (fuel : nat) :
  enumerates w h prev cs last ->
  (List.length cs < fuel)%nat ->
  (existsb (thumbprint_matches w target) cs = true ->
     exists before c after,
       cs = before ++ c :: after /\
       forallb (fun c => negb (thumbprint_matches w target c)) before = true /\
       thumbprint_matches w target c = true /\
       outcome (enumerate w fuel h target prev)
       = Returned (LoopBreak true (Some c))) /\
  (existsb (thumbprint_matches w target) cs = false ->
     outcome (enumerate w fuel h target prev) = Returned (reply_exit last)).
Proof.
  intros Hen Hfuel.
  rewrite (enumerate_resolution h target last cs prev fuel Hen Hfuel).
  split.
  - intros Hex.
    destruct (resolution_match target cs last Hex)
      as (before & c & after & Hcs & Hb & Hc & Hr).
    exists before, c, after. now rewrite Hr.
  - intros Hno. rewrite resolution_no_match; [reflexivity|].
    clear Hen Hfuel. induction cs as [|c cs IH]; [reflexivity|].
    cbn [existsb] in Hno. apply orb_false_iff in Hno.
    destruct Hno as [Hc Hcs]. cbn [forallb]. now rewrite Hc, IH.
Qed.

Lemma no_match_forallb (target : list Z) (cs : list CertContext) :
  existsb (thumbprint_matches w target) cs = false ->
  forallb (fun c => negb (thumbprint_matches w target c)) cs = true.
Proof.
  induction cs as [|c cs IH]; [reflexivity|].
  cbn [existsb forallb]. intros H. apply orb_false_iff in H.
  destruct H as [Hc Hcs]. now rewrite Hc, IH.
Qed.

(** X8.  The pipeline on such a store, opened with a handle that is not
    null: it ends; when no entry has the thumbprint and the store ends by
    the end-of-store code or a [nil] entry, it fails with
    certificate-not-found; when an entry has the thumbprint, its result is
    that of the decryption followed by the deserialization. *)
Theorem pipeline_on_enumerated_store (fuel : nat)
  (configFolder thumbprint : string) (decoded : slice.t Z) (h : Z)
  (cs : list CertContext) (last : option CertContext * option foreign_error) :
  open_reply w = (h, None) -> h <> 0 ->
  enumerates w h None cs last ->
  (List.length cs < fuel)%nat ->
  let target := fst (thumbprintStringToHex thumbprint) in
  let run := DecryptProtectedSettings w fuel configFolder thumbprint decoded in
  outcome run <> OutOfFuel /\
  (existsb (thumbprint_matches w target) cs = false ->
   snd last = None \/ snd last = Some (Errno crypteENotFound) ->
   outcome run = Returned (None, Some CertNotFound)) /\
  (existsb (thumbprint_matches w target) cs = true ->
   outcome run = decrypt_and_parse w decoded h).
Proof.
  intros Hopen Hh Hen Hfuel. cbv zeta.
  rewrite (DecryptProtectedSettings_opened w fuel _ _ _ h Hopen Hh). cbv zeta.
  set (target := fst (thumbprintStringToHex thumbprint)).
  rewrite (enumerate_resolution h target last cs None fuel Hen Hfuel).
  destruct (decryptDataWithCert_trace w decoded None h) as (_ & _ & Hdec).
  split; [|split].
  - destruct (resolution w target cs last) as [[] entry|e];
      cbn [outcome fst]; try discriminate.
    destruct (outcome (decryptDataWithCert w decoded None h))
      as [[bytes [e|]]|p|]; try discriminate. now contradiction Hdec.
  - intros Hno Hlast.
    rewrite resolution_no_match by now apply no_match_forallb.
    destruct last as [cert err]. cbn [snd] in Hlast.
    destruct Hlast as [->| ->]; reflexivity.
  - intros Hex.
    destruct (resolution_match target cs last Hex)
      as (before & c & after & _ & _ & _ & ->).
    reflexivity.
Qed.

End ResolverFacts.

(** ** What the trace of a run shows *)

Section TraceFacts.
Context {V : Type} (w : Native V).

Lemma enum_cursors_app (t1 t2 : list Event) :
  enum_cursors (t1 ++ t2) = enum_cursors t1 ++ enum_cursors t2.
Proof.
  induction t1 as [|e t1 IH]; [reflexivity|].
  destruct e; cbn [app enum_cursors]; now rewrite ?IH.
Qed.

Lemma getCertificateThumbprint_events (h : Z) (cert : option CertContext) :
  forallb (on_store h) (trace (getCertificateThumbprint w cert)) = true /\
  existsb is_decrypt_message (trace (getCertificateThumbprint w cert)) = false /\
  enum_cursors (trace (getCertificateThumbprint w cert)) = [].
Proof.
  pose proof (getCertificateThumbprint_cases w cert) as H. cbv zeta in H.
  rewrite H.
  repeat match goal with
  | |- context [if ?b then _ else _] => destruct b
  end; cbn; auto.
Qed.

Lemma decryptDataWithCert_events (decoded : slice.t Z)
  (cert : option CertContext) (h : Z) :
  forallb (on_store h) (trace (decryptDataWithCert w decoded cert h)) = true /\
  enum_cursors (trace (decryptDataWithCert w decoded cert h)) = [] /\
  (slice.elems decoded = [] ->
   trace (decryptDataWithCert w decoded cert h) = []).
Proof.
  destruct (slice.elems decoded) as [|b0 rest] eqn:E.
  - rewrite decryptDataWithCert_empty by exact E. cbn. auto.
  - pose proof (decryptDataWithCert_cases w decoded cert h) as H.
    cbv zeta in H. rewrite H by congruence.
    assert (Hev : forall pb pcb,
      on_store h (CallCryptDecryptMessage (decrypt_parameters decoded h)
                    (slice.elems decoded) (Z.of_nat (slice.len decoded)) pb pcb)
      = true).
    { intros pb pcb. cbn [on_store decrypt_parameters rghCertStore cCertStore].
      now rewrite Z.eqb_refl. }
    repeat match goal with
    | |- context [if ?b then _ else _] => destruct b
    end; cbn [trace snd forallb enum_cursors]; rewrite ?Hev;
      repeat split; auto; discriminate.
Qed.

(** The loop makes enumeration calls on its store and property queries,
    nothing else, and hands each enumeration call the entry the call before
    returned. *)
Lemma enumerate_events (fuel : nat) (h : Z) (target : list Z) :
  forall prev,
    forallb (on_store h) (trace (enumerate w fuel h target prev)) = true /\
    existsb is_decrypt_message (trace (enumerate w fuel h target prev)) = false /\
    chained w h prev (enum_cursors (trace (enumerate w fuel h target prev))).
Proof.
  induction fuel as [|fuel IH]; intros prev; [cbn; auto|].
  rewrite enumerate_round. cbv zeta.
  destruct (CertEnumCertificatesInStore w h prev) as [cert err] eqn:Hreply.
  assert (Hone :
    forallb (on_store h) [CallCertEnumCertificatesInStore h prev] = true /\
    existsb is_decrypt_message [CallCertEnumCertificatesInStore h prev] = false /\
    chained w h prev (enum_cursors [CallCertEnumCertificatesInStore h prev])).
  { cbn. rewrite Z.eqb_refl. auto. }
  destruct err as [e|]; [exact Hone|].
  destruct cert as [c|]; [|exact Hone].
  destruct (getCertificateThumbprint_events h (Some c)) as (Hq1 & Hq2 & Hq3).
  destruct (IH (Some c)) as (IH1 & IH2 & IH3).
  assert (Hstop :
    forallb (on_store h)
      (CallCertEnumCertificatesInStore h prev
       :: trace (getCertificateThumbprint w (Some c))) = true /\
    existsb is_decrypt_message
      (CallCertEnumCertificatesInStore h prev
       :: trace (getCertificateThumbprint w (Some c))) = false /\
    chained w h prev
      (enum_cursors (CallCertEnumCertificatesInStore h prev
                     :: trace (getCertificateThumbprint w (Some c))))).
  { cbn [forallb existsb enum_cursors on_store is_decrypt_message chained].
    rewrite Z.eqb_refl, Hq1, Hq2, Hq3. cbn. auto. }
  assert (Hgo :
    forallb (on_store h)
      (CallCertEnumCertificatesInStore h prev
       :: trace (getCertificateThumbprint w (Some c))
          ++ trace (enumerate w fuel h target (Some c))) = true /\
    existsb is_decrypt_message
      (CallCertEnumCertificatesInStore h prev
       :: trace (getCertificateThumbprint w (Some c))
          ++ trace (enumerate w fuel h target (Some c))) = false /\
    chained w h prev
      (enum_cursors (CallCertEnumCertificatesInStore h prev
                     :: trace (getCertificateThumbprint w (Some c))
                        ++ trace (enumerate w fuel h target (Some c))))).
  { cbn [forallb existsb enum_cursors on_store is_decrypt_message chained].
    rewrite forallb_app, existsb_app, enum_cursors_app.
    rewrite Z.eqb_refl, Hq1, Hq2, Hq3, IH1, IH2, Hreply.
    cbn. auto. }
  destruct (outcome (getCertificateThumbprint w (Some c)))
    as [[[candidate|] [e|]]|p|]; cbn [trace snd]; try exact Hgo;
    try exact Hstop.
  destruct (bytes_Compare target candidate =? 0); cbn [trace snd];
    [exact Hstop|exact Hgo].
Qed.

(** The outcome of any run of the pipeline, by how far it got. *)
Lemma DecryptProtectedSettings_outcome (fuel : nat)
  (configFolder thumbprint : string) (decoded : slice.t Z) :
  let run := DecryptProtectedSettings w fuel configFolder thumbprint decoded in
  let target := fst (thumbprintStringToHex thumbprint) in
  (exists h e, open_reply w = (h, Some e) /\
     run = (Returned (None, Some (StoreAccessDenied e)), [open_event])) \/
  (open_reply w = (0, None) /\
     run = (Returned (None, Some ErrMustRunAsAdmin), [open_event])) \/
  (exists h, open_reply w = (h, None) /\ h <> 0 /\
     ((outcome (enumerate w fuel h target None) = OutOfFuel /\
       outcome run = OutOfFuel) \/
      (exists e, outcome (enumerate w fuel h target None)
                 = Returned (LoopReturn e) /\
                 outcome run = Returned (None, Some e)) \/
      (exists entry, outcome (enumerate w fuel h target None)
                     = Returned (LoopBreak false entry) /\
                     outcome run = Returned (None, Some CertNotFound)) \/
      (exists c, outcome (enumerate w fuel h target None)
                 = Returned (LoopBreak true (Some c)) /\
                 thumbprint_matches w target c = true /\
                 outcome run = decrypt_and_parse w decoded h))).
Proof.
  cbv zeta.
  destruct (DecryptProtectedSettings_not_opened w fuel configFolder thumbprint
              decoded) as [Herr Hnull].
  destruct (open_reply w) as [h [e|]] eqn:Hopen.
  { left. exists h, e. split; [reflexivity|]. exact (Herr h e eq_refl). }
  destruct (Z.eq_dec h 0) as [->|Hh].
  { right. left. split; [reflexivity|]. exact (Hnull eq_refl). }
  right. right. exists h. split; [reflexivity|]. split; [exact Hh|].
  rewrite (DecryptProtectedSettings_opened w fuel _ _ _ h Hopen Hh). cbv zeta.
  set (target := fst (thumbprintStringToHex thumbprint)).
  pose proof (enumerate_found w fuel h target None) as Hfound.
  destruct (enumerate_quiet w fuel h target None) as (_ & _ & Hnp).
  destruct (outcome (enumerate w fuel h target None))
    as [[[] entry|e]|p|] eqn:Eloop; cbn [outcome fst].
  - right. right. right.
    destruct (Hfound entry eq_refl) as (c & candidate & -> & Hq & Hcmp).
    exists c. split; [reflexivity|]. split; [|reflexivity].
    unfold thumbprint_matches. rewrite Hq. now apply Z.eqb_eq.
  - right. right. left. now exists entry.
  - right. left. now exists e.
  - now contradiction (Hnp p).
  - left. now split.
Qed.

End TraceFacts.

(** ** What a run of the pipeline does and returns *)

Section PipelineRuns.
Context {V : Type} (w : Native V).

Lemma decrypt_and_parse_error (decoded : slice.t Z) (h : Z)
  (v : option V) (err : error) :
  decrypt_and_parse w decoded h = Returned (v, Some err) ->
  (v = None /\
   (err = ErrInvalidProtectedSettingsData \/
    exists errno, err = DecryptionFailed errno)) \/
  (exists bytes e,
     outcome (decryptDataWithCert w decoded None h) = Returned (bytes, None) /\
     json_Unmarshal w bytes = (v, Some e) /\ err = Foreign e).
Proof.
  unfold decrypt_and_parse.
  pose proof (decryptDataWithCert_errors w decoded None h) as Herr.
  destruct (outcome (decryptDataWithCert w decoded None h))
    as [[bytes [e|]]|p|]; try discriminate.
  - intros H. inversion H; subst. left. split; [reflexivity|].
    exact (Herr bytes err eq_refl).
  - destruct (json_Unmarshal w bytes) as [v' [e|]] eqn:Ej; cbn;
      intros H; inversion H; subst.
    right. exists bytes, e. auto.
Qed.



(** The pipeline reads its thumbprint argument through the codec only, and
    its folder argument not at all. *)
Lemma DecryptProtectedSettings_same_thumbprint (fuel : nat)
  (folder1 folder2 text1 text2 : string) (decoded : slice.t Z) :
  thumbprintStringToHex text1 = thumbprintStringToHex text2 ->
  DecryptProtectedSettings w fuel folder1 text1 decoded
  = DecryptProtectedSettings w fuel folder2 text2 decoded.
Proof.
  intros E. unfold DecryptProtectedSettings. now rewrite E.
Qed.

(** X9.  The pipeline calls the message decryption only after a match: a
    run whose trace holds a [CryptDecryptMessage] call opened the store
    with a handle that is not null, left the loop at an entry whose computed
    thumbprint equals the decoded target, and was given a ciphertext that is
    not empty. *)
Theorem decrypts_only_after_match (fuel : nat)
  (configFolder thumbprint : string) (decoded : slice.t Z) :
  let run := DecryptProtectedSettings w fuel configFolder thumbprint decoded in
  let target := fst (thumbprintStringToHex thumbprint) in
  existsb is_decrypt_message (trace run) = true ->
  exists h c,
    open_reply w = (h, None) /\ h <> 0 /\
    outcome (enumerate w fuel h target None)
      = Returned (LoopBreak true (Some c)) /\
    thumbprint_matches w target c = true /\
    (1 <= slice.len decoded)%nat.
Proof.
  cbv zeta. intros Hcall.
  destruct (DecryptProtectedSettings_not_opened w fuel configFolder thumbprint
              decoded) as [Herr Hnull].
  destruct (open_reply w) as [h [e|]] eqn:Hopen.
  { rewrite (Herr h e eq_refl) in Hcall. discriminate Hcall. }
  destruct (Z.eq_dec h 0) as [->|Hh].
  { rewrite (Hnull eq_refl) in Hcall. discriminate Hcall. }
  rewrite (DecryptProtectedSettings_opened w fuel _ _ _ h Hopen Hh) in Hcall.
  cbv zeta in Hcall.
  set (target := fst (thumbprintStringToHex thumbprint)) in *.
  destruct (enumerate_events w fuel h target None) as (_ & Hloop & _).
  destruct (decryptDataWithCert_events w decoded None h) as (_ & _ & Hempty).
  pose proof (enumerate_found w fuel h target None) as Hfound.
  destruct (outcome (enumerate w fuel h target None))
    as [[[] entry|e]|p|] eqn:Eloop; cbn [trace snd existsb] in Hcall;
    rewrite ?existsb_app, ?Hloop in Hcall; cbn in Hcall;
    try discriminate Hcall.
  destruct (Hfound entry eq_refl) as (c & candidate & -> & Hq & Hcmp).
  exists h, c. split; [reflexivity|]. split; [exact Hh|].
  split; [exact Eloop|]. split.
  - unfold thumbprint_matches. rewrite Hq. now apply Z.eqb_eq.
  - destruct (slice.elems decoded) as [|b0 rest] eqn:Eblob.
    + rewrite (Hempty eq_refl) in Hcall. discriminate Hcall.
    + unfold slice.len. rewrite Eblob. cbn. lia.
Qed.

(** X10.  A run that opened the store with the handle [h] is one session
    on [h]: the opening is its first event and it opens nothing again;
    every enumeration call and the closing name [h]; every property query
    asks for the hash property; and the decryption is given [h] as its one
    store. *)
Theorem single_store_session (fuel : nat)
  (configFolder thumbprint : string) (decoded : slice.t Z) (h : Z) :
  open_reply w = (h, None) -> h <> 0 ->
  let run := DecryptProtectedSettings w fuel configFolder thumbprint decoded in
  exists rest,
    trace run = open_event :: rest /\ forallb (on_store h) rest = true.
Proof.
  intros Hopen Hh. cbv zeta.
  rewrite (DecryptProtectedSettings_opened w fuel _ _ _ h Hopen Hh). cbv zeta.
  set (target := fst (thumbprintStringToHex thumbprint)).
  destruct (enumerate_events w fuel h target None) as (Hloop & _ & _).
  destruct (decryptDataWithCert_events w decoded None h) as (Hdec & _ & _).
  assert (Hclose : forallb (on_store h) [CallCertCloseStore h 0] = true)
    by (cbn; now rewrite Z.eqb_refl).
  destruct (outcome (enumerate w fuel h target None)) as [[[] entry|e]|p|];
    cbn [trace snd]; eexists; (split; [reflexivity|]);
    rewrite ?forallb_app, ?Hloop, ?Hclose; try reflexivity.
  cbn [forallb on_store]. rewrite forallb_app, Hdec, Hclose, Z.eqb_refl.
  reflexivity.
Qed.

(** X11.  In every run the first enumeration call is given a [nil] cursor
    and each later one the entry the call before returned; a run that did
    not get a handle makes no enumeration call. *)
Theorem enumeration_cursor_chain (fuel : nat)
  (configFolder thumbprint : string) (decoded : slice.t Z) :
  let run := DecryptProtectedSettings w fuel configFolder thumbprint decoded in
  chained w (fst (open_reply w)) None (enum_cursors (trace run)) /\
  (snd (open_reply w) <> None \/ fst (open_reply w) = 0 ->
   enum_cursors (trace run) = []).
Proof.
  cbv zeta.
  destruct (DecryptProtectedSettings_not_opened w fuel configFolder thumbprint
              decoded) as [Herr Hnull].
  destruct (open_reply w) as [h [e|]] eqn:Hopen.
  { rewrite (Herr h e eq_refl). cbn. auto. }
  destruct (Z.eq_dec h 0) as [->|Hh].
  { rewrite (Hnull eq_refl). cbn. auto. }
  cbn [fst snd].
  rewrite (DecryptProtectedSettings_opened w fuel _ _ _ h Hopen Hh). cbv zeta.
  set (target := fst (thumbprintStringToHex thumbprint)).
  destruct (enumerate_events w fuel h target None) as (_ & _ & Hchain).
  destruct (decryptDataWithCert_events w decoded None h) as (_ & Hdec & _).
  split; [|intros [H|H]; congruence].
  destruct (outcome (enumerate w fuel h target None)) as [[[] entry|e]|p|];
    cbn [trace snd enum_cursors];
    rewrite ?enum_cursors_app; cbn [enum_cursors];
    rewrite ?enum_cursors_app, ?Hdec; cbn [enum_cursors];
    rewrite ?app_nil_r; exact Hchain.
Qed.

(** X12.  The pipeline does the same, call for call and result for
    result, for every spelling of one thumbprint: for two well-formed texts
    that differ only in letter case, for a text with a byte order mark or
    one ASCII character in front, and whatever the folder argument. *)
Theorem pipeline_ignores_spelling (fuel : nat)
  (folder text : string) (decoded : slice.t Z) :
  CodecSpec.valid_hex text ->
  (forall folder' text',
     CodecSpec.valid_hex text' ->
     CodecSpec.to_lower text' = CodecSpec.to_lower text ->
     DecryptProtectedSettings w fuel folder' text' decoded
     = DecryptProtectedSettings w fuel folder text decoded) /\
  DecryptProtectedSettings w fuel folder (byte_order_mark ++ text) decoded
  = DecryptProtectedSettings w fuel folder text decoded /\
  (forall c, GoString.byte_val c < 128 ->
     DecryptProtectedSettings w fuel folder (String c text) decoded
     = DecryptProtectedSettings w fuel folder text decoded).
Proof.
  intros Hv. destruct (thumbprintStringToHex_stray text Hv) as [Hbom Hone].
  split; [|split].
  - intros folder' text' Hv' E.
    apply DecryptProtectedSettings_same_thumbprint.
    now apply decode_of_to_lower.
  - now apply DecryptProtectedSettings_same_thumbprint.
  - intros c Hc. apply DecryptProtectedSettings_same_thumbprint.
    now apply Hone.
Qed.

(** X13.  Every error the pipeline returns is one of: the store-access
    error, must-run-as-admin, an enumeration failure (never with the
    end-of-store code), certificate-not-found, invalid protected settings
    data, a decryption failure, or the error of the deserialization.  It
    never returns the invalid-thumbprint error nor a hashing failure. *)
Theorem pipeline_error_taxonomy (fuel : nat)
  (configFolder thumbprint : string) (decoded : slice.t Z)
  (v : option V) (err : error) :
  outcome (DecryptProtectedSettings w fuel configFolder thumbprint decoded)
    = Returned (v, Some err) ->
  pipeline_error err /\
  err <> InvalidThumbprint /\
  (forall errno, err <> HashingFailed errno).
Proof.
  intros H. apply DecryptProtectedSettings_errors in H.
  split; [exact H|].
  split; [|intros errno]; intros ->; inversion H.
Qed.

(** X14.  A failure comes with a [nil] mapping, except the failure of the
    deserialization: then the pipeline returns the error of
    [json.Unmarshal] as it is, with the mapping [json.Unmarshal] left, and
    the bytes it was given are the plaintext of a decryption that
    succeeded. *)
Theorem failure_returns_no_mapping (fuel : nat)
  (configFolder thumbprint : string) (decoded : slice.t Z)
  (v : option V) (err : error) :
  outcome (DecryptProtectedSettings w fuel configFolder thumbprint decoded)
    = Returned (v, Some err) ->
  (v = None /\ forall e, err <> Foreign e) \/
  (exists h bytes e,
     open_reply w = (h, None) /\
     outcome (decryptDataWithCert w decoded None h) = Returned (bytes, None) /\
     json_Unmarshal w bytes = (v, Some e) /\ err = Foreign e).
Proof.
  intros Hrun.
  pose proof (DecryptProtectedSettings_errors w fuel _ _ _ v err Hrun) as Htax.
  destruct (DecryptProtectedSettings_outcome w fuel configFolder thumbprint
              decoded)
    as [(h & e & _ & Hr)|[(_ & Hr)|(h & Hopen & Hh & Hcases)]].
  - rewrite Hr in Hrun. cbn in Hrun. inversion Hrun; subst.
    left. split; [reflexivity|discriminate].
  - rewrite Hr in Hrun. cbn in Hrun. inversion Hrun; subst.
    left. split; [reflexivity|discriminate].
  - destruct Hcases as [(_ & Hr)|[(e & Hloop & Hr)|[(entry & _ & Hr)
                       |(c & _ & _ & Hr)]]];
      rewrite Hr in Hrun; try discriminate Hrun.
    + inversion Hrun; subst. left. split; [reflexivity|].
      apply enumerate_return in Hloop. destruct Hloop as (e' & -> & _).
      discriminate.
    + inversion Hrun; subst. left. split; [reflexivity|discriminate].
    + apply decrypt_and_parse_error in Hrun.
      destruct Hrun as [(-> & [->|[errno ->]])|(bytes & e & Hd & Hj & ->)].
      * left. split; [reflexivity|discriminate].
      * left. split; [reflexivity|discriminate].
      * right. exists h, bytes, e. auto.
Qed.


(** X16.  When the loop stopped at a match and the size query of the
    decryption succeeds with a size of zero, the pipeline hands a [nil]
    slice to [json.Unmarshal] and returns what that makes of it. *)
Theorem empty_plaintext_is_deserialized (fuel : nat)
  (configFolder thumbprint : string) (decoded : slice.t Z) (h : Z)
  (entry : option CertContext) :
  open_reply w = (h, None) -> h <> 0 ->
  outcome (enumerate w fuel h (fst (thumbprintStringToHex thumbprint)) None)
    = Returned (LoopBreak true entry) ->
  (1 <= slice.len decoded)%nat ->
  raw (decrypt_probe w decoded h) <> 0 ->
  uint32 (count (decrypt_probe w decoded h)) = 0 ->
  outcome (DecryptProtectedSettings w fuel configFolder thumbprint decoded)
  = Returned (fst (json_Unmarshal w None),
              option_map Foreign (snd (json_Unmarshal w None))).
Proof.
  intros Hopen Hh Hloop Hlen Hraw Hcb.
  rewrite (DecryptProtectedSettings_opened w fuel _ _ _ h Hopen Hh). cbv zeta.
  rewrite Hloop. cbn [outcome fst].
  pose proof (decryptDataWithCert_cases w decoded None h) as Hc.
  cbv zeta in Hc. rewrite Hc.
  - replace (raw (decrypt_probe w decoded h) =? 0) with false
      by (symmetry; now apply Z.eqb_neq).
    now rewrite Hcb.
  - intros E. unfold slice.len in Hlen. rewrite E in Hlen. cbn in Hlen. lia.
Qed.


End PipelineRuns.

(** ** The further properties at concrete inputs *)

Lemma thumbprint_has_announced_size_witness :
  Z.of_nat (List.length [0xAB; 0x12])
  = uint32 (count (hash_probe (fake_native store_one) (Some 1))).
Proof.
  destruct (thumbprint_has_announced_size (fake_native store_one) (Some 1)
              [0xAB; 0x12] None) as (_ & _ & _ & Hsize & _);
    [reflexivity|exact Hsize].
Defined.

Lemma hashing_failure_reported_witness :
  outcome (getCertificateThumbprint (fake_native store_three) (Some 2))
  = Returned (None, Some (HashingFailed crypteENotFound)) /\
  outcome (getCertificateThumbprint
             (native_with_property store_one (reply_ok [0; 0]) (reply_failed 5))
             (Some 1))
  = Returned (None, Some (HashingFailed 5)).
Proof.
  split.
  - destruct (hashing_failure_reported (fake_native store_three) (Some 2))
      as [Hprobe _].
    rewrite Hprobe; reflexivity.
  - destruct (hashing_failure_reported
                (native_with_property store_one (reply_ok [0; 0]) (reply_failed 5))
                (Some 1)) as [_ Hfill].
    apply Hfill; [vm_compute; discriminate|vm_compute; discriminate|reflexivity].
Defined.

Lemma plaintext_has_reported_length_witness :
  Z.of_nat (List.length [123; 125])
  = uint32 (count (decrypt_fill (fake_native store_one) (Some [1]) 700)).
Proof.
  destruct (plaintext_has_reported_length (fake_native store_one) (Some [1])
              None 700 [123; 125] None) as (_ & _ & _ & _ & Hlen & _);
    [reflexivity|exact Hlen].
Defined.

Lemma fill_beyond_probe_panics_witness :
  outcome (decryptDataWithCert (fake_native store_growing) (Some [1]) None 700)
  = Panicked SliceBoundsOutOfRange.
Proof.
  apply (fill_beyond_probe_panics (fake_native store_growing) (Some [1]) None 700).
  vm_compute. repeat split; try discriminate; lia.
Defined.

Lemma resolver_stops_at_first_match_witness :
  exists before c after,
    [1; 2; 3] = before ++ c :: after /\
    forallb (fun c => negb (thumbprint_matches (fake_native store_three)
                              [0xAB; 0x12] c)) before = true /\
    thumbprint_matches (fake_native store_three) [0xAB; 0x12] c = true /\
    outcome (enumerate (fake_native store_three) 4 700 [0xAB; 0x12] None)
    = Returned (LoopBreak true (Some c)).
Proof.
  destruct (resolver_stops_at_first_match (fake_native store_three) 700
              [0xAB; 0x12] [1; 2; 3] end_of_store None 4) as [Hmatch _].
  - repeat split; reflexivity.
  - vm_compute. lia.
  - apply Hmatch. reflexivity.
Defined.

Lemma pipeline_on_enumerated_store_witness :
  outcome (DecryptProtectedSettings (fake_native store_three) 4 "" "0102AB"
             (Some [1]))
  = Returned (None, Some CertNotFound) /\
  outcome (DecryptProtectedSettings (fake_native store_three) 4 "" "AB12"
             (Some [1]))
  = decrypt_and_parse (fake_native store_three) (Some [1]) 700.
Proof.
  split.
  - destruct (pipeline_on_enumerated_store (fake_native store_three) 4 ""
                "0102AB" (Some [1]) 700 [1; 2; 3] end_of_store)
      as (_ & Hnone & _).
    + reflexivity.
    + lia.
    + repeat split; reflexivity.
    + vm_compute. lia.
    + apply Hnone; [reflexivity|right; reflexivity].
  - destruct (pipeline_on_enumerated_store (fake_native store_three) 4 ""
                "AB12" (Some [1]) 700 [1; 2; 3] end_of_store)
      as (_ & _ & Hsome).
    + reflexivity.
    + lia.
    + repeat split; reflexivity.
    + vm_compute. lia.
    + apply Hsome. reflexivity.
Defined.

Lemma decrypts_only_after_match_witness :
  exists h c,
    open_reply (fake_native store_three) = (h, None) /\ h <> 0 /\
    outcome (enumerate (fake_native store_three) 4 h
               (fst (thumbprintStringToHex "AB12")) None)
      = Returned (LoopBreak true (Some c)) /\
    thumbprint_matches (fake_native store_three)
      (fst (thumbprintStringToHex "AB12")) c = true /\
    (1 <= slice.len (Some [1]))%nat.
Proof.
  apply (decrypts_only_after_match (fake_native store_three) 4 "" "AB12"
           (Some [1])).
  reflexivity.
Defined.

Lemma single_store_session_witness :
  exists rest,
    trace (DecryptProtectedSettings (fake_native store_three) 4 "" "AB12"
             (Some [1]))
    = open_event :: rest /\ forallb (on_store 700) rest = true.
Proof.
  apply (single_store_session (fake_native store_three) 4 "" "AB12"
           (Some [1]) 700); [reflexivity|lia].
Defined.

Lemma enumeration_cursor_chain_witness :
  enum_cursors (trace (DecryptProtectedSettings
                         (fake_native (with_open store_three (0, None))) 4 ""
                         "AB12" (Some [1]))) = [].
Proof.
  destruct (enumeration_cursor_chain
              (fake_native (with_open store_three (0, None))) 4 "" "AB12"
              (Some [1])) as [_ Hnone].
  apply Hnone. right. reflexivity.
Defined.

Lemma pipeline_ignores_spelling_witness :
  DecryptProtectedSettings (fake_native store_three) 4 "other" "ab12" (Some [1])
  = DecryptProtectedSettings (fake_native store_three) 4 "" "AB12" (Some [1]).
Proof.
  destruct (pipeline_ignores_spelling (fake_native store_three) 4 "" "AB12"
              (Some [1])) as [Hcase _]; [split; reflexivity|].
  apply Hcase; [split; reflexivity|reflexivity].
Defined.

Lemma pipeline_error_taxonomy_witness :
  pipeline_error CertNotFound.
Proof.
  destruct (pipeline_error_taxonomy (fake_native store_empty) 1 "" "AB12"
              (Some [1]) None CertNotFound) as [Htax _];
    [reflexivity|exact Htax].
Defined.

Lemma failure_returns_no_mapping_witness :
  (@None (list Z) = None /\ forall e, CertNotFound <> Foreign e) \/
  (exists h bytes e,
     open_reply (fake_native store_empty) = (h, None) /\
     outcome (decryptDataWithCert (fake_native store_empty) (Some [1]) None h)
       = Returned (bytes, None) /\
     json_Unmarshal (fake_native store_empty) bytes = (None, Some e) /\
     CertNotFound = Foreign e).
Proof.
  apply (failure_returns_no_mapping (fake_native store_empty) 1 "" "AB12"
           (Some [1])).
  reflexivity.
Defined.


Lemma empty_plaintext_is_deserialized_witness :
  outcome (DecryptProtectedSettings (fake_native store_blank) 2 "" "AB12"
             (Some [1]))
  = Returned (None, Some (Foreign (OpaqueError "unexpected end of JSON input"))).
Proof.
  apply (empty_plaintext_is_deserialized (fake_native store_blank) 2 "" "AB12"
           (Some [1]) 700 (Some 1)).
  - reflexivity.
  - lia.
  - reflexivity.
  - vm_compute. lia.
  - vm_compute. discriminate.
  - reflexivity.
Defined.


(** ** The arguments of the native calls, and the empty target *)

Section CallFacts.
Context {V : Type} (w : Native V).






Lemma getCertificateThumbprint_nonempty (cert : option CertContext)
  (hash : list Z) (err : option error) :
  outcome (getCertificateThumbprint w cert) = Returned (Some hash, err) ->
  hash <> [].
Proof.
  pose proof (getCertificateThumbprint_cases w cert) as H. cbv zeta in H.
  rewrite H.
  pose proof (uint32_range (count (hash_probe w cert))) as Hcb.
  destruct (raw (hash_probe w cert) =? 0); [cbn; discriminate|].
  destruct (uint32 (count (hash_probe w cert)) =? 0) eqn:Ecb;
    [cbn; discriminate|].
  apply Z.eqb_neq in Ecb.
  destruct (raw (hash_fill w cert) =? 0); [cbn; discriminate|].
  cbn [outcome fst]. intros Hr. inversion Hr; subst. intros Hnil.
  apply (f_equal (@List.length Z)) in Hnil.
  rewrite overwrite_length, make_length in Hnil. cbn in Hnil. lia.
Qed.

Lemma empty_target_never_matches (c : CertContext) :
  thumbprint_matches w [] c = false.
Proof.
  unfold thumbprint_matches.
  pose proof (getCertificateThumbprint_nonempty (Some c)) as Hne.
  destruct (outcome (getCertificateThumbprint w (Some c)))
    as [[[candidate|] [e|]]|p|]; try reflexivity.
  destruct candidate as [|b rest]; [now contradiction (Hne [] None eq_refl)|].
  reflexivity.
Qed.

(** X19.  A thumbprint text that decodes to no byte (the empty text, a
    single character) matches no certificate, not even one whose thumbprint
    property is empty: whatever the store holds, the run never reaches the
    decryption, never panics and never returns without an error. *)
Theorem empty_target_never_resolves (fuel : nat)
  (configFolder thumbprint : string) (decoded : slice.t Z) :
  fst (thumbprintStringToHex thumbprint) = [] ->
  let run := DecryptProtectedSettings w fuel configFolder thumbprint decoded in
  decryption_certificates (trace run) = [] /\
  (forall p, outcome run <> Panicked p) /\
  (forall v, outcome run <> Returned (v, None)).
Proof.
  intros Hempty. cbv zeta.
  split; [|split].
  - destruct (decryption_certificate_is_nil w fuel configFolder thumbprint
                decoded) as [Hnone|(_ & h & c & candidate & _ & _ & Hq & Hc)];
      [exact Hnone|].
    exfalso. rewrite Hempty in Hc. subst candidate.
    now apply (getCertificateThumbprint_nonempty (Some c) [] None).
  - intros p Hrun.
    destruct (DecryptProtectedSettings_outcome w fuel configFolder thumbprint
                decoded)
      as [(h & e & _ & Hr)|[(_ & Hr)|(h & _ & _ & Hcases)]];
      [rewrite Hr in Hrun; discriminate Hrun
      |rewrite Hr in Hrun; discriminate Hrun|].
    destruct Hcases as [(_ & Hr)|[(e & _ & Hr)|[(entry & _ & Hr)
                       |(c & _ & Hm & _)]]];
      try (rewrite Hr in Hrun; discriminate Hrun).
    rewrite Hempty, empty_target_never_matches in Hm. discriminate Hm.
  - intros v Hrun.
    destruct (DecryptProtectedSettings_outcome w fuel configFolder thumbprint
                decoded)
      as [(h & e & _ & Hr)|[(_ & Hr)|(h & _ & _ & Hcases)]];
      [rewrite Hr in Hrun; discriminate Hrun
      |rewrite Hr in Hrun; discriminate Hrun|].
    destruct Hcases as [(_ & Hr)|[(e & _ & Hr)|[(entry & _ & Hr)
                       |(c & _ & Hm & _)]]];
      try (rewrite Hr in Hrun; discriminate Hrun).
    rewrite Hempty, empty_target_never_matches in Hm. discriminate Hm.
Qed.

(** X20.  Matching is exact: an entry matches the target exactly when the
    property query returns, without error, a thumbprint with the bytes of
    the target, no more and no fewer; and when the loop is left with
    [found] set, the entry it stopped at is such an entry. *)
Theorem match_is_exact (target : list Z) :
  (forall c,
     thumbprint_matches w target c = true <->
     outcome (getCertificateThumbprint w (Some c))
     = Returned (Some target, None)) /\
  (forall fuel h prev entry,
     outcome (enumerate w fuel h target prev)
       = Returned (LoopBreak true entry) ->
     exists c,
       entry = Some c /\
       outcome (getCertificateThumbprint w (Some c))
       = Returned (Some target, None)).
Proof.
  split.
  - intros c. unfold thumbprint_matches.
    destruct (outcome (getCertificateThumbprint w (Some c)))
      as [[[candidate|] [e|]]|p|];
      try (split; [discriminate|intros H; inversion H]).
    rewrite Z.eqb_eq, bytes_Compare_eq.
    split; [intros ->; reflexivity|intros H; now inversion H].
  - intros fuel h prev entry Hloop.
    destruct (enumerate_found w fuel h target prev entry Hloop)
      as (c & candidate & -> & Hq & Hcmp).
    exists c. split; [reflexivity|].
    apply bytes_Compare_eq in Hcmp. now subst candidate.
Qed.

End CallFacts.

Lemma match_is_exact_witness :
  outcome (getCertificateThumbprint (fake_native store_one) (Some 1))
  = Returned (Some [0xAB; 0x12], None).
Proof.
  destruct (match_is_exact (fake_native store_one) [0xAB; 0x12]) as [Hiff _].
  apply Hiff. reflexivity.
Defined.

Lemma empty_target_never_resolves_witness :
  decryption_certificates
    (trace (DecryptProtectedSettings (fake_native store_zero) 2 "" "x"
              (Some [1]))) = [].
Proof.
  apply (empty_target_never_resolves (fake_native store_zero) 2 "" "x"
           (Some [1])).
  reflexivity.
Defined.
